(** * A shallow embedding of the lexer / parser / serializer pipeline of
      [mains.cpp], and the properties of it that the specification states.

    Conventions of the embedding.

    - [std::string] is [string]; [char] is [ascii] (one byte).  The program
      never calls [setlocale], so the character classes of [<cctype>] are
      those of the "C" locale: bytes outside the 7-bit range belong to no
      class.
    - [size_t] cursors ([Lexer::pos], [Parser::index]) are [nat]: both stay
      at or below the size of the buffer they index (see [getNextToken_bound]
      and [parseStatement_index_bound]), so no wrap-around can occur.
    - [std::vector<T>] is [list T]; [operator[]] is partial (it has no
      defined result outside the bounds) and is modelled by [vector_at].
    - [std::cerr] is the list of lines written so far. *)

From Equations Require Import Equations.
From Stdlib Require Import List Arith Lia Bool String Ascii.
Import ListNotations.

Open Scope string_scope.
Open Scope list_scope.
Open Scope nat_scope.

(* ===================================================================== *)
(** * Data model *)
(* ===================================================================== *)

(** [enum class TokenType] *)
Inductive TokenType : Set :=
| IDENTIFIER
| KEYWORD
| OPERATOR
| LITERAL
| COMMENT
| WHITESPACE
| UNKNOWN.

Definition TokenType_eqb (a b : TokenType) : bool :=
  match a, b with
  | IDENTIFIER, IDENTIFIER | KEYWORD, KEYWORD | OPERATOR, OPERATOR
  | LITERAL, LITERAL | COMMENT, COMMENT | WHITESPACE, WHITESPACE
  | UNKNOWN, UNKNOWN => true
  | _, _ => false
  end.

(** [struct Token] *)
Record Token : Set := mkToken { type : TokenType; value : string }.

(** The token [{TokenType::UNKNOWN, ""}] that both the lexer (at the end of
    the input) and the parser (past the end of the vector) build. *)
Definition sentinel : Token := mkToken UNKNOWN "".

(** [class ASTNode]: a type, a value and the owned children. *)
#[local] Set Warnings "-register-all".
Inductive ASTNode : Set :=
| mkASTNode (node_type : string) (node_value : string)
            (children : list ASTNode).

Definition node_type (n : ASTNode) : string :=
  match n with mkASTNode t _ _ => t end.
Definition node_value (n : ASTNode) : string :=
  match n with mkASTNode _ v _ => v end.
Definition children (n : ASTNode) : list ASTNode :=
  match n with mkASTNode _ _ cs => cs end.

(** [node->children.push_back(child)] *)
Definition push_back_child (n child : ASTNode) : ASTNode :=
  match n with mkASTNode t v cs => mkASTNode t v (cs ++ [child]) end.

(* ===================================================================== *)
(** * Character classes of [<cctype>] in the "C" locale *)
(* ===================================================================== *)

Definition in_range (lo hi : nat) (c : ascii) : bool :=
  let n := nat_of_ascii c in (lo <=? n) && (n <=? hi).

Definition isdigit (c : ascii) : bool := in_range 48 57 c.
Definition isalpha (c : ascii) : bool := in_range 65 90 c || in_range 97 122 c.
Definition isalnum (c : ascii) : bool := isalpha c || isdigit c.
Definition isspace (c : ascii) : bool :=
  (nat_of_ascii c =? 32) || in_range 9 13 c.

(** The condition of the loop of [lexIdentifier]:
    [isalnum(code[pos]) || code[pos] == '_']. *)
Definition is_ident_char (c : ascii) : bool := isalnum c || Ascii.eqb c "_".

(** The first test of [getNextToken]: [isalpha(c) || c == '_']. *)
Definition is_ident_start (c : ascii) : bool := isalpha c || Ascii.eqb c "_".

(** [std::string(1, c)] *)
Definition string_of_char (c : ascii) : string := String c EmptyString.

(* ===================================================================== *)
(** * Lexer *)
(* ===================================================================== *)

(** [code] is [const]; the only mutable member is [pos].  [String.get pos
    code] is [Some (code[pos])] exactly when [pos < code.size()]
    ([get_Some_lt], [get_None_ge]), so one match on it stands for the
    bounds test followed by the read. *)

(** Closes the termination obligation of the scanning loops: the branch
    that loops has read [code[pos]], so [pos] is below the size and the
    distance to the end of the buffer decreases. *)
Ltac scan_decreases :=
  match goal with
  | H : String.get ?n ?s = Some _ |- _ =>
      let B := fresh "B" in
      assert (B : n < String.length s);
      [ clear - H; revert n H; induction s as [|a s IH]; intros [|n] H;
        simpl in *; try discriminate; try lia;
        apply IH in H; lia
      | lia ]
  end.

(** Matching on [inspect e] keeps the equation [e = pattern] in scope. *)
Definition inspect {A : Type} (a : A) : {b : A | a = b} := exist _ a eq_refl.

(** [while (pos < code.size() && isspace(code[pos])) ++pos;] *)
Equations? skipWhitespace (code : string) (pos : nat) : nat
  by wf (String.length code - pos) lt :=
  skipWhitespace code pos with inspect (String.get pos code) := {
    | exist _ (Some c) _ with inspect (isspace c) := {
        | exist _ true _ := skipWhitespace code (S pos);
        | exist _ false _ := pos };
    | exist _ None _ := pos }.
Proof. scan_decreases. Qed.

(** The loop shared by [lexIdentifier] and [lexLiteral]:
    [while (pos < code.size() && p(code[pos])) text += code[pos++];]
    It returns the text accumulated and the position reached. *)
Equations? lex_while (p : ascii -> bool) (code : string) (pos : nat)
  (text : string) : string * nat
  by wf (String.length code - pos) lt :=
  lex_while p code pos text with inspect (String.get pos code) := {
    | exist _ (Some c) _ with inspect (p c) := {
        | exist _ true _ :=
            lex_while p code (S pos) (text ++ string_of_char c)%string;
        | exist _ false _ := (text, pos) };
    | exist _ None _ := (text, pos) }.
Proof. scan_decreases. Qed.

(** [Token lexIdentifier()] *)
Definition lexIdentifier (code : string) (pos : nat) : Token * nat :=
  let '(identifier, pos') := lex_while is_ident_char code pos "" in
  (mkToken IDENTIFIER identifier, pos').

(** [Token lexLiteral()] *)
Definition lexLiteral (code : string) (pos : nat) : Token * nat :=
  let '(literal, pos') := lex_while isdigit code pos "" in
  (mkToken LITERAL literal, pos').

(** [Token getNextToken()]: the token returned and the new value of [pos]. *)
Definition getNextToken (code : string) (pos : nat) : Token * nat :=
  let pos := skipWhitespace code pos in
  match String.get pos code with
  | None => (sentinel, pos)
  | Some currentChar =>
      if is_ident_start currentChar then lexIdentifier code pos
      else if isdigit currentChar then lexLiteral code pos
      else (mkToken UNKNOWN (string_of_char currentChar), pos)
  end.

(** The outcome of a loop that the embedding runs on fuel, and of code that
    indexes a vector: a value, a read outside a vector, or fuel exhausted
    (one unit of fuel is one iteration of the loop). *)
Inductive Run (A : Type) : Type :=
| Returned (a : A)
| OutOfRange
| OutOfFuel.
Arguments Returned {A} a.
Arguments OutOfRange {A}.
Arguments OutOfFuel {A}.

(** The lexing loop of [main]:
    [do { token = lexer.getNextToken(); tokens.push_back(token); }
     while (token.type != TokenType::UNKNOWN);] *)
Fixpoint lexing_loop (fuel : nat) (code : string) (pos : nat)
  (tokens : list Token) : Run (list Token) :=
  match fuel with
  | 0 => OutOfFuel
  | S fuel' =>
      let '(token, pos') := getNextToken code pos in
      let tokens' := tokens ++ [token] in
      if negb (TokenType_eqb (type token) UNKNOWN)
      then lexing_loop fuel' code pos' tokens'
      else Returned tokens'
  end.

(** [Lexer lexer(code); std::vector<Token> tokens;] and the loop. *)
Definition lexing (fuel : nat) (code : string) : Run (list Token) :=
  lexing_loop fuel code 0 [].

(* ===================================================================== *)
(** * Parser *)
(* ===================================================================== *)

(** What a parser operation can change: the cursor [index] and the lines
    written to [std::cerr].  [tokens] is a [const] reference. *)
Record PState : Set := mkPState { index : nat; cerr : list string }.

(** A parser operation: a state transformer that may read out of range. *)
Definition M (A : Type) : Type := PState -> Run (A * PState).

Definition ret {A : Type} (a : A) : M A := fun st => Returned (a, st).

Definition bind {A B : Type} (m : M A) (k : A -> M B) : M B :=
  fun st =>
    match m st with
    | Returned (a, st') => k a st'
    | OutOfRange => OutOfRange
    | OutOfFuel => OutOfFuel
    end.

Notation "x <- m ;; k" := (bind m (fun x => k))
  (at level 61, m at next level, right associativity).
Notation "m ;; k" := (bind m (fun _ => k))
  (at level 61, right associativity).

(** [tokens[i]]: defined only for [i < tokens.size()]. *)
Definition vector_at (tokens : list Token) (i : nat) : Run Token :=
  match nth_error tokens i with
  | Some t => Returned t
  | None => OutOfRange
  end.

(** [std::cerr << ... << std::endl] *)
Definition report (line : string) : M unit :=
  fun st => Returned (tt, mkPState (index st) (cerr st ++ [line])).

Section Parser.

Variable tokens : list Token.

(** [Token getCurrentToken() const] *)
Definition getCurrentToken : M Token :=
  fun st =>
    if index st <? List.length tokens then
      match vector_at tokens (index st) with
      | Returned t => Returned (t, st)
      | OutOfRange => OutOfRange
      | OutOfFuel => OutOfFuel
      end
    else Returned (sentinel, st).

(** [void consumeToken() { ++index; }] *)
Definition consumeToken : M unit :=
  fun st => Returned (tt, mkPState (S (index st)) (cerr st)).

(** [std::shared_ptr<ASTNode> parseStatement()]; [None] is [nullptr]. *)
Definition parseStatement : M (option ASTNode) :=
  token <- getCurrentToken ;;
  if TokenType_eqb (type token) IDENTIFIER then
    let statementNode := mkASTNode "Statement" (value token) [] in
    consumeToken ;;
    next <- getCurrentToken ;;
    if String.eqb (value next) ";" then
      consumeToken ;;
      ret (Some statementNode)
    else
      report "Expected semicolon after identifier." ;;
      ret None
  else
    report ("Unexpected token: " ++ value token) ;;
    ret None.

(** The loop of [parseProgram]:
    [while (index < tokens.size()) { ... }  return programNode;] *)
Fixpoint parseProgram_loop (fuel : nat) (programNode : ASTNode)
  : M ASTNode :=
  match fuel with
  | 0 => fun _ => OutOfFuel
  | S fuel' =>
      fun st =>
        if index st <? List.length tokens then
          (statementNode <- parseStatement ;;
           match statementNode with
           | Some child =>
               parseProgram_loop fuel' (push_back_child programNode child)
           | None => parseProgram_loop fuel' programNode
           end) st
        else Returned (programNode, st)
  end.

(** [std::shared_ptr<ASTNode> parseProgram()] *)
Definition parseProgram (fuel : nat) : M ASTNode :=
  parseProgram_loop fuel (mkASTNode "Program" "" []).

End Parser.

(** [Parser parser(tokens); auto ast = parser.parse();]: the constructor
    sets [index] to 0; [cerr0] is what [std::cerr] holds already. *)
Definition parse (fuel : nat) (tokens : list Token) (cerr0 : list string)
  : Run (ASTNode * PState) :=
  parseProgram tokens fuel (mkPState 0 cerr0).

(* ===================================================================== *)
(** * Serializer *)
(* ===================================================================== *)

(** The double quote, which the string literals of the source escape. *)
Definition dquote : string := string_of_char "034"%char.

(** The three string literals of [serializeNode] that hold double quotes:
    [{ "type": "], [", "value": "] and [", "children": []. *)
Definition lit_type : string :=
  ("{ " ++ dquote ++ "type" ++ dquote ++ ": " ++ dquote)%string.
Definition lit_value : string :=
  (dquote ++ ", " ++ dquote ++ "value" ++ dquote ++ ": " ++ dquote)%string.
Definition lit_children : string :=
  (dquote ++ ", " ++ dquote ++ "children" ++ dquote ++ ": [")%string.

(** [void serializeNode(node, oss)]: the stream after the call, given the
    stream before.  [rest] is [node->children] from index [i] on. *)
Fixpoint serializeNode (node : ASTNode) (oss : string) {struct node}
  : string :=
  match node with
  | mkASTNode t v cs =>
      let oss := (oss ++ lit_type)%string in
      let oss := (oss ++ t)%string in
      let oss := (oss ++ lit_value)%string in
      let oss := (oss ++ v)%string in
      let oss := (oss ++ lit_children)%string in
      let oss :=
        (fix for_children (rest : list ASTNode) (i : nat) (oss : string)
           {struct rest} : string :=
           match rest with
           | [] => oss
           | child :: rest' =>
               let oss := serializeNode child oss in
               let oss :=
                 if negb (i =? List.length cs - 1) then (oss ++ ", ")%string
                 else oss in
               for_children rest' (S i) oss
           end) cs 0 oss in
      (oss ++ "] }")%string
  end.

(** [std::string serialize(node)]: a fresh stream, filled, read back. *)
Definition serialize (node : ASTNode) : string := serializeNode node "".

(** The [for] loop of [serializeNode] under a name of its own ([size] is
    [node->children.size()]); [serializeNode_unfold] shows that it is the
    loop inside [serializeNode]. *)
Definition for_children (size : nat)
  : list ASTNode -> nat -> string -> string :=
  fix for_children (rest : list ASTNode) (i : nat) (oss : string)
    {struct rest} : string :=
    match rest with
    | [] => oss
    | child :: rest' =>
        let oss := serializeNode child oss in
        let oss :=
          if negb (i =? size - 1) then (oss ++ ", ")%string else oss in
        for_children rest' (S i) oss
    end.

(* ===================================================================== *)
(** * Visitor and [main] *)
(* ===================================================================== *)

(** [void visit(node)]: [std::cout], as the list of lines written, after
    the call, given the list before.  The range-[for] over the children
    is a left fold. *)
Fixpoint visit (node : ASTNode) (cout : list string) {struct node}
  : list string :=
  match node with
  | mkASTNode t v cs =>
      let cout :=
        cout ++ [((("Visited node of type " ++ t) ++ " with value ") ++ v)
                   %string] in
      fold_left (fun cout child => visit child cout) cs cout
  end.

(** [int main()].  [file] is the content of "input.c", or [None] when the
    file cannot be opened.  The result is the exit status, the lines
    written to [std::cout] and the lines written to [std::cerr]; [fuel]
    bounds the iterations of each of the two loops. *)
Definition main (fuel : nat) (file : option string)
  : Run (nat * list string * list string) :=
  match file with
  | None => Returned (1, [], ["Failed to open input file."])
  | Some code =>
      match lexing fuel code with
      | Returned tokens =>
          match parse fuel tokens [] with
          | Returned (ast, st) =>
              let cout := visit ast [] in
              let serializedAst := serialize ast in
              let cout :=
                cout ++ [("Serialized AST: " ++ serializedAst)%string] in
              Returned (0, cout, cerr st)
          | OutOfRange => OutOfRange
          | OutOfFuel => OutOfFuel
          end
      | OutOfRange => OutOfRange
      | OutOfFuel => OutOfFuel
      end
  end.

(* ===================================================================== *)
(** * Vocabulary of the statements *)
(* ===================================================================== *)

(** Every character of [s] is in the class [p]. *)
Fixpoint all_chars (p : ascii -> bool) (s : string) : bool :=
  match s with
  | EmptyString => true
  | String c s' => p c && all_chars p s'
  end.

(** A run of the class [p] cannot be extended into [rest]: [rest] is empty
    or starts with a character outside [p]. *)
Definition stops_at (p : ascii -> bool) (rest : string) : bool :=
  match String.get 0 rest with
  | Some c => negb (p c)
  | None => true
  end.

(** Structural equality of two trees: same type, same value, and the
    children equal one by one. *)
Fixpoint ast_eqb (a b : ASTNode) {struct a} : bool :=
  match a, b with
  | mkASTNode t1 v1 cs1, mkASTNode t2 v2 cs2 =>
      String.eqb t1 t2 && String.eqb v1 v2 &&
      (fix all2 (l1 l2 : list ASTNode) {struct l1} : bool :=
         match l1, l2 with
         | [], [] => true
         | x :: l1', y :: l2' => ast_eqb x y && all2 l1' l2'
         | _, _ => false
         end) cs1 cs2
  end.

(** The tokens returned by [n] successive calls of [getNextToken] on a
    lexer whose position is [pos]. *)
Fixpoint calls (n : nat) (code : string) (pos : nat) : list Token :=
  match n with
  | 0 => []
  | S n' =>
      let '(token, pos') := getNextToken code pos in
      token :: calls n' code pos'
  end.

(** The position of the lexer after [n] successive calls. *)
Fixpoint pos_after (n : nat) (code : string) (pos : nat) : nat :=
  match n with
  | 0 => pos
  | S n' => pos_after n' code (snd (getNextToken code pos))
  end.

(** The number of nodes of a tree. *)
Fixpoint node_count (n : ASTNode) : nat :=
  match n with
  | mkASTNode _ _ cs => S (list_sum (map node_count cs))
  end.

(** The line that [visit] writes for a node of type [t] and value [v]. *)
Definition visited_line (t v : string) : string :=
  ((("Visited node of type " ++ t) ++ " with value ") ++ v)%string.

(** The lines of a pre-order walk: the node, then its children's subtrees
    from left to right. *)
Fixpoint preorder_lines (n : ASTNode) : list string :=
  match n with
  | mkASTNode t v cs => visited_line t v :: flat_map preorder_lines cs
  end.

(** The record that the serializer is meant to write for a node: the three
    fields, the children's records separated by [", "]. *)
Fixpoint record_text (n : ASTNode) : string :=
  match n with
  | mkASTNode t v cs =>
      (lit_type ++ t ++ lit_value ++ v ++ lit_children
       ++ String.concat ", " (map record_text cs) ++ "] }")%string
  end.

(** What a token returned by the lexer looks like: an identifier is a
    letter or underscore followed by letters, digits and underscores; a
    literal is one or more digits; an [UNKNOWN] token is empty or one
    character that is neither white space, nor a letter, an underscore or a
    digit.  No other type occurs. *)
Definition lexer_token (t : Token) : bool :=
  match type t with
  | IDENTIFIER =>
      match value t with
      | EmptyString => false
      | String c rest => is_ident_start c && all_chars is_ident_char rest
      end
  | LITERAL =>
      match value t with
      | EmptyString => false
      | String c rest => isdigit c && all_chars isdigit rest
      end
  | UNKNOWN =>
      match value t with
      | EmptyString => true
      | String c EmptyString =>
          negb (isspace c) && negb (is_ident_start c) && negb (isdigit c)
      | _ => false
      end
  | _ => false
  end.

(** The diagnostic of [parseStatement] for a missing separator. *)
Definition expected_semicolon : string :=
  "Expected semicolon after identifier.".

(** The statement [v ;] as two tokens; only the value of the second one is
    looked at by the parser, so its type [ty] is free. *)
Definition statement_tokens (s : string * TokenType) : list Token :=
  [mkToken IDENTIFIER (fst s); mkToken (snd s) ";"].

(** A text without its white space characters. *)
Fixpoint strip_spaces (s : string) : string :=
  match s with
  | EmptyString => EmptyString
  | String c s' =>
      if isspace c then strip_spaces s' else String c (strip_spaces s')
  end.

(** The texts of a list of tokens, one after the other. *)
Definition token_texts (l : list Token) : string :=
  fold_right (fun t acc => (value t ++ acc)%string) "" l.

(* ===================================================================== *)
(** * Strings and character classes *)
(* ===================================================================== *)

Lemma get_Some_lt (s : string) (n : nat) (c : ascii) :
  String.get n s = Some c -> n < String.length s.
Proof.
  revert n; induction s as [|a s IH]; intros [|n] H; simpl in *;
    try discriminate; try lia.
  apply IH in H. lia.
Qed.

Lemma get_None_ge (s : string) (n : nat) :
  String.get n s = None -> String.length s <= n.
Proof.
  revert n; induction s as [|a s IH]; intros [|n] H; simpl in *;
    try discriminate; try lia.
  apply IH in H. lia.
Qed.

Lemma get_ge_None (s : string) (n : nat) :
  String.length s <= n -> String.get n s = None.
Proof.
  intros H. destruct (String.get n s) eqn:E; auto.
  apply get_Some_lt in E. lia.
Qed.

Lemma length_append (s1 s2 : string) :
  String.length (s1 ++ s2) = String.length s1 + String.length s2.
Proof. induction s1; simpl; congruence. Qed.

Lemma append_nil_r (s : string) : (s ++ "")%string = s.
Proof. induction s; simpl; congruence. Qed.

Lemma append_assoc (s1 s2 s3 : string) :
  (s1 ++ (s2 ++ s3))%string = ((s1 ++ s2) ++ s3)%string.
Proof. induction s1; simpl; congruence. Qed.

(** The character at the junction of [pre] and [rest]. *)
Lemma get_at_junction (pre rest : string) :
  String.get (String.length pre) (pre ++ rest) = String.get 0 rest.
Proof. induction pre; simpl; auto. Qed.

Lemma ident_start_is_ident_char (c : ascii) :
  is_ident_start c = true -> is_ident_char c = true.
Proof.
  unfold is_ident_start, is_ident_char, isalnum.
  intros H. apply orb_true_iff in H. destruct H as [H | H]; rewrite H.
  - reflexivity.
  - apply orb_true_r.
Qed.

(* ===================================================================== *)
(** * The scanning loops *)
(* ===================================================================== *)

Lemma skipWhitespace_ge (code : string) (pos : nat) :
  pos <= skipWhitespace code pos.
Proof. funelim (skipWhitespace code pos); lia. Qed.

Lemma skipWhitespace_le (code : string) (pos : nat) :
  pos <= String.length code -> skipWhitespace code pos <= String.length code.
Proof.
  funelim (skipWhitespace code pos); intros; try lia.
  match goal with IH : ?A -> ?B |- ?B => apply IH end.
  match goal with H : String.get ?n ?s = Some _ |- _ =>
    pose proof (get_Some_lt _ _ _ H) end.
  lia.
Qed.

(** On leaving the loop the position is at the end or on a character that
    is not white space: the condition of the [while] is false. *)
Lemma skipWhitespace_stops (code : string) (pos : nat) (c : ascii) :
  String.get (skipWhitespace code pos) code = Some c -> isspace c = false.
Proof. funelim (skipWhitespace code pos); intros Hget; auto; congruence. Qed.

Lemma skipWhitespace_fixed (code : string) (pos : nat) (c : ascii) :
  String.get pos code = Some c -> isspace c = false ->
  skipWhitespace code pos = pos.
Proof.
  intros Hget Hsp. funelim (skipWhitespace code pos); congruence.
Qed.

Lemma skipWhitespace_at_end (code : string) (pos : nat) :
  String.get pos code = None -> skipWhitespace code pos = pos.
Proof.
  intros Hget. funelim (skipWhitespace code pos); congruence.
Qed.

Lemma skipWhitespace_step (code : string) (pos : nat) (c : ascii) :
  String.get pos code = Some c -> isspace c = true ->
  skipWhitespace code pos = skipWhitespace code (S pos).
Proof.
  intros Hget Hsp. funelim (skipWhitespace code pos); congruence.
Qed.

Lemma lex_while_ge (p : ascii -> bool) (code : string) (pos : nat)
  (text : string) :
  pos <= snd (lex_while p code pos text).
Proof. funelim (lex_while p code pos text); simpl; lia. Qed.

Lemma lex_while_le (p : ascii -> bool) (code : string) (pos : nat)
  (text : string) :
  pos <= String.length code ->
  snd (lex_while p code pos text) <= String.length code.
Proof.
  funelim (lex_while p code pos text); simpl; intros; try lia.
  match goal with IH : ?A -> ?B |- ?B => apply IH end.
  match goal with H : String.get ?n ?s = Some _ |- _ =>
    pose proof (get_Some_lt _ _ _ H) end.
  lia.
Qed.

Lemma lex_while_step (p : ascii -> bool) (code : string) (pos : nat)
  (text : string) (c : ascii) :
  String.get pos code = Some c -> p c = true ->
  lex_while p code pos text =
  lex_while p code (S pos) (text ++ string_of_char c)%string.
Proof.
  intros Hget Hp. funelim (lex_while p code pos text); congruence.
Qed.

Lemma lex_while_stop (p : ascii -> bool) (code : string) (pos : nat)
  (text : string) (c : ascii) :
  String.get pos code = Some c -> p c = false ->
  lex_while p code pos text = (text, pos).
Proof.
  intros Hget Hp. funelim (lex_while p code pos text); congruence.
Qed.

Lemma lex_while_at_end (p : ascii -> bool) (code : string) (pos : nat)
  (text : string) :
  String.get pos code = None -> lex_while p code pos text = (text, pos).
Proof.
  intros Hget. funelim (lex_while p code pos text); congruence.
Qed.

(** A loop entered on a character of the class consumes it. *)
Lemma lex_while_progress (p : ascii -> bool) (code : string) (pos : nat)
  (text : string) (c : ascii) :
  String.get pos code = Some c -> p c = true ->
  pos < snd (lex_while p code pos text).
Proof.
  intros Hget Hp. rewrite (lex_while_step _ _ _ _ _ Hget Hp).
  pose proof (lex_while_ge p code (S pos) (text ++ string_of_char c)%string).
  lia.
Qed.

(** Scanning a run of the class that cannot be extended: the loop appends
    exactly the run and stops right behind it. *)
Lemma lex_while_run (p : ascii -> bool) (run : string) :
  forall (pre post text : string),
    all_chars p run = true -> stops_at p post = true ->
    lex_while p (pre ++ run ++ post) (String.length pre) text =
    ((text ++ run)%string, String.length pre + String.length run).
Proof.
  induction run as [|c run IH]; intros pre post text Hall Hstop.
  - simpl. rewrite append_nil_r, Nat.add_0_r.
    unfold stops_at in Hstop.
    destruct (String.get 0 post) as [c|] eqn:E.
    + apply lex_while_stop with (c := c).
      * rewrite get_at_junction. exact E.
      * now apply negb_true_iff.
    + apply lex_while_at_end. rewrite get_at_junction. exact E.
  - simpl in Hall. apply andb_true_iff in Hall. destruct Hall as [Hc Hall].
    rewrite (lex_while_step p _ _ _ c).
    + replace (pre ++ String c run ++ post)%string
        with ((pre ++ string_of_char c) ++ run ++ post)%string
        by (rewrite <- append_assoc; reflexivity).
      replace (S (String.length pre))
        with (String.length (pre ++ string_of_char c))
        by (rewrite length_append; simpl; lia).
      rewrite IH by assumption.
      rewrite length_append, <- append_assoc. simpl. f_equal. lia.
    + rewrite get_at_junction. reflexivity.
    + exact Hc.
Qed.

Lemma skipWhitespace_run (ws : string) :
  forall (pre rest : string),
    all_chars isspace ws = true -> stops_at isspace rest = true ->
    skipWhitespace (pre ++ ws ++ rest) (String.length pre) =
    String.length pre + String.length ws.
Proof.
  induction ws as [|c ws IH]; intros pre rest Hall Hstop.
  - simpl. rewrite Nat.add_0_r.
    unfold stops_at in Hstop.
    destruct (String.get 0 rest) as [c|] eqn:E.
    + apply skipWhitespace_fixed with (c := c).
      * rewrite get_at_junction. exact E.
      * now apply negb_true_iff.
    + apply skipWhitespace_at_end. rewrite get_at_junction. exact E.
  - simpl in Hall. apply andb_true_iff in Hall. destruct Hall as [Hc Hall].
    rewrite (skipWhitespace_step _ _ c).
    + replace (pre ++ String c ws ++ rest)%string
        with ((pre ++ string_of_char c) ++ ws ++ rest)%string
        by (rewrite <- append_assoc; reflexivity).
      replace (S (String.length pre))
        with (String.length (pre ++ string_of_char c))
        by (rewrite length_append; simpl; lia).
      rewrite IH by assumption.
      rewrite length_append. simpl. lia.
    + rewrite get_at_junction. reflexivity.
    + exact Hc.
Qed.

(* ===================================================================== *)
(** * [getNextToken] *)
(* ===================================================================== *)

Lemma getNextToken_ge (code : string) (pos : nat) :
  pos <= snd (getNextToken code pos).
Proof.
  unfold getNextToken, lexIdentifier, lexLiteral.
  pose proof (skipWhitespace_ge code pos) as Hs.
  destruct (String.get (skipWhitespace code pos) code) as [c|]; simpl; auto.
  destruct (is_ident_start c); [|destruct (isdigit c)]; simpl; auto.
  - pose proof (lex_while_ge is_ident_char code (skipWhitespace code pos) "").
    destruct (lex_while is_ident_char code (skipWhitespace code pos) "").
    simpl in *. lia.
  - pose proof (lex_while_ge isdigit code (skipWhitespace code pos) "").
    destruct (lex_while isdigit code (skipWhitespace code pos) "").
    simpl in *. lia.
Qed.

Lemma getNextToken_bound (code : string) (pos : nat) :
  pos <= String.length code ->
  snd (getNextToken code pos) <= String.length code.
Proof.
  intros Hpos.
  unfold getNextToken, lexIdentifier, lexLiteral.
  pose proof (skipWhitespace_le code pos Hpos) as Hs.
  destruct (String.get (skipWhitespace code pos) code) as [c|]; simpl; auto.
  destruct (is_ident_start c); [|destruct (isdigit c)]; simpl; auto.
  - pose proof (lex_while_le is_ident_char code _ "" Hs).
    destruct (lex_while is_ident_char code (skipWhitespace code pos) "").
    simpl in *. lia.
  - pose proof (lex_while_le isdigit code _ "" Hs).
    destruct (lex_while isdigit code (skipWhitespace code pos) "").
    simpl in *. lia.
Qed.

(** The two branches that return a token of another type than [UNKNOWN]
    consume at least the character they were entered on. *)
Lemma getNextToken_progress (code : string) (pos : nat) :
  type (fst (getNextToken code pos)) <> UNKNOWN ->
  pos < snd (getNextToken code pos).
Proof.
  unfold getNextToken, lexIdentifier, lexLiteral.
  pose proof (skipWhitespace_ge code pos) as Hs.
  destruct (String.get (skipWhitespace code pos) code) as [c|] eqn:Hget;
    simpl; [|congruence].
  destruct (is_ident_start c) eqn:Hstart; [|destruct (isdigit c) eqn:Hdig];
    simpl; try congruence; intros _.
  - pose proof (lex_while_progress is_ident_char code _ "" c Hget
                  (ident_start_is_ident_char c Hstart)).
    destruct (lex_while is_ident_char code (skipWhitespace code pos) "").
    simpl in *. lia.
  - pose proof (lex_while_progress isdigit code _ "" c Hget Hdig).
    destruct (lex_while isdigit code (skipWhitespace code pos) "").
    simpl in *. lia.
Qed.

(** The branch for any other character returns it without consuming it:
    unlike [lexIdentifier] and [lexLiteral], it does not touch [pos]. *)
Lemma getNextToken_other_char (code : string) (pos : nat) (c : ascii) :
  String.get pos code = Some c ->
  isspace c = false -> is_ident_start c = false -> isdigit c = false ->
  getNextToken code pos = (mkToken UNKNOWN (string_of_char c), pos).
Proof.
  intros Hget Hsp Hstart Hdig. unfold getNextToken.
  rewrite (skipWhitespace_fixed code pos c Hget Hsp), Hget, Hstart, Hdig.
  reflexivity.
Qed.

(** C1 (fails on the code).  The claim: every call of [getNextToken] made
    before the end of the input strictly increases the position, and a
    character that is neither a letter, an underscore nor a digit is
    emitted as an [UNKNOWN] token and consumed.  On the source [";"] the call
    at position 0, which is before the end, returns the token [UNKNOWN ";"]
    and leaves the position at 0, and so does every later call; hence the
    claim does not hold for every source text. *)
Theorem getNextToken_semicolon_not_consumed :
  0 < String.length ";" /\
  getNextToken ";" 0 = (mkToken UNKNOWN ";", 0) /\
  (forall n, pos_after n ";" 0 = 0) /\
  ~ (forall code pos, pos < String.length code ->
       pos < snd (getNextToken code pos)).
Proof.
  split; [simpl; lia|]. split; [reflexivity|]. split.
  - induction n as [|n IH]; [reflexivity|].
    simpl. exact IH.
  - intros H. specialize (H ";"%string 0). simpl in H.
    assert (0 < 0) by (apply H; lia). lia.
Qed.

(* ===================================================================== *)
(** * The lexing loop of [main] *)
(* ===================================================================== *)

Lemma TokenType_eqb_eq (a b : TokenType) :
  TokenType_eqb a b = true <-> a = b.
Proof. destruct a, b; simpl; split; congruence. Qed.

Lemma TokenType_eqb_neq (a b : TokenType) :
  TokenType_eqb a b = false <-> a <> b.
Proof. destruct a, b; simpl; split; congruence. Qed.

(** More fuel does not change a result. *)
Lemma lexing_loop_more_fuel (fuel : nat) :
  forall (k : nat) (code : string) (pos : nat) (acc tokens : list Token),
    lexing_loop fuel code pos acc = Returned tokens ->
    lexing_loop (fuel + k) code pos acc = Returned tokens.
Proof.
  induction fuel as [|fuel IH]; intros k code pos acc tokens H.
  - discriminate.
  - simpl in *. destruct (getNextToken code pos) as [token pos'].
    destruct (negb (TokenType_eqb (type token) UNKNOWN)); auto.
Qed.

(** The loop returns as soon as the fuel exceeds the distance to the end of
    the input, having appended the results of the calls up to and including
    the first one that returned an [UNKNOWN] token. *)
Lemma lexing_loop_returns (fuel : nat) :
  forall (code : string) (pos : nat) (acc : list Token),
    pos <= String.length code ->
    String.length code - pos < fuel ->
    exists n,
      lexing_loop fuel code pos acc = Returned (acc ++ calls (S n) code pos) /\
      type (last (calls (S n) code pos) sentinel) = UNKNOWN /\
      Forall (fun t => type t <> UNKNOWN) (removelast (calls (S n) code pos)).
Proof.
  induction fuel as [|fuel IH]; intros code pos acc Hpos Hfuel; [lia|].
  pose proof (getNextToken_progress code pos) as Hprog.
  pose proof (getNextToken_bound code pos Hpos) as Hbound.
  cbn [lexing_loop].
  destruct (getNextToken code pos) as [token pos'] eqn:Hcall.
  simpl in Hprog, Hbound.
  destruct (TokenType_eqb (type token) UNKNOWN) eqn:Hty; cbn [negb].
  - exists 0. cbn [calls]. rewrite Hcall. cbn [last removelast].
    apply TokenType_eqb_eq in Hty. auto.
  - apply TokenType_eqb_neq in Hty. specialize (Hprog Hty).
    destruct (IH code pos' (acc ++ [token]) Hbound ltac:(lia))
      as (n & Hrun & Hlast & Hinit).
    exists (S n).
    change (calls (S (S n)) code pos)
      with (let '(t, p) := getNextToken code pos in t :: calls (S n) code p).
    rewrite Hcall.
    rewrite Hrun, <- app_assoc. split; [reflexivity|].
    remember (calls (S n) code pos') as rest eqn:Hrest.
    assert (Hne : rest <> []).
    { rewrite Hrest. cbn [calls].
      destruct (getNextToken code pos'). discriminate. }
    destruct rest as [|r rest]; [congruence|].
    split; [exact Hlast|].
    cbn [removelast]. constructor; assumption.
Qed.

(** C5.  For every source text the lexing loop of [main] returns (any fuel
    above the length of the text is enough, and the result is the same for
    all of them); the token vector is not empty, its last element has type
    [UNKNOWN] and no earlier element has: the vector holds the results of
    the successive calls of [getNextToken] up to and including the first
    [UNKNOWN] one, whatever that token is, and nothing after it. *)
Theorem lexing_stops_at_first_unknown (code : string) :
  exists (tokens : list Token) (n : nat),
    (forall k, lexing (S (String.length code) + k) code = Returned tokens) /\
    tokens = calls (S n) code 0 /\
    tokens <> [] /\
    type (last tokens sentinel) = UNKNOWN /\
    Forall (fun t => type t <> UNKNOWN) (removelast tokens).
Proof.
  destruct (lexing_loop_returns (S (String.length code)) code 0 []
              ltac:(lia) ltac:(lia)) as (n & Hrun & Hlast & Hinit).
  exists (calls (S n) code 0), n.
  split; [|split; [reflexivity|split; [|split; assumption]]].
  - intros k. unfold lexing. apply lexing_loop_more_fuel. exact Hrun.
  - cbn [calls]. destruct (getNextToken code 0). discriminate.
Qed.

Example lexing_truncates :
  lexing 4 "a;b" = Returned [mkToken IDENTIFIER "a"; mkToken UNKNOWN ";"].
Proof. reflexivity. Qed.

(* ===================================================================== *)
(** * Identifiers *)
(* ===================================================================== *)

(** The classes tested first and second by [getNextToken] are disjoint from
    white space, so [skipWhitespace] stops in front of them. *)
Lemma ident_start_not_space (c : ascii) :
  is_ident_start c = true -> isspace c = false.
Proof.
  destruct c as [b0 b1 b2 b3 b4 b5 b6 b7].
  destruct b0, b1, b2, b3, b4, b5, b6, b7;
    vm_compute; intros H; solve [reflexivity | discriminate H].
Qed.

(** C6.  Let the source text contain, behind any white space [ws], a run
    [String c run] of letters, digits and underscores that starts with a
    letter or an underscore and cannot be extended ([post] is empty or
    starts with a character outside the class).  The call of [getNextToken]
    made with the position in front of [ws] returns one token of type
    [IDENTIFIER] whose text is the entire run, and leaves the position
    right behind the run: no token is returned for a proper prefix of it. *)
Theorem getNextToken_identifier_run
  (pre ws : string) (c : ascii) (run post : string) :
  all_chars isspace ws = true ->
  is_ident_start c = true ->
  all_chars is_ident_char run = true ->
  stops_at is_ident_char post = true ->
  getNextToken (pre ++ ws ++ String c run ++ post) (String.length pre) =
  (mkToken IDENTIFIER (String c run),
   String.length pre + String.length ws + String.length (String c run)).
Proof.
  intros Hws Hstart Hrun Hpost.
  unfold getNextToken.
  rewrite skipWhitespace_run; [|exact Hws|].
  2:{ unfold stops_at. simpl.
      rewrite (ident_start_not_space c Hstart). reflexivity. }
  replace (pre ++ ws ++ String c run ++ post)%string
    with ((pre ++ ws) ++ String c run ++ post)%string
    by (rewrite <- append_assoc; reflexivity).
  rewrite <- length_append.
  rewrite get_at_junction. cbn [String.get append].
  rewrite Hstart. unfold lexIdentifier.
  change (String c (run ++ post))%string with (String c run ++ post)%string.
  rewrite (lex_while_run is_ident_char (String c run) (pre ++ ws) post "").
  - reflexivity.
  - cbn [all_chars]. rewrite (ident_start_is_ident_char c Hstart), Hrun.
    reflexivity.
  - exact Hpost.
Qed.

Lemma getNextToken_identifier_run_witness :
  all_chars isspace "  " = true /\
  is_ident_start "f" = true /\
  all_chars is_ident_char "oo_2" = true /\
  stops_at is_ident_char ";" = true /\
  getNextToken ("x1 " ++ "  " ++ String "f" "oo_2" ++ ";") 3 =
  (mkToken IDENTIFIER "foo_2", 3 + 2 + 5).
Proof.
  repeat (split; [reflexivity|]).
  apply (getNextToken_identifier_run "x1 " "  " "f" "oo_2" ";");
    reflexivity.
Defined.

(* ===================================================================== *)
(** * Parser operations in closed form *)
(* ===================================================================== *)

(** The bounds test of [getCurrentToken] guards its read: the operation
    returns the token under the cursor, or the sentinel past the end. *)
Lemma getCurrentToken_eq (tokens : list Token) (st : PState) :
  getCurrentToken tokens st = Returned (nth (index st) tokens sentinel, st).
Proof.
  unfold getCurrentToken, vector_at.
  destruct (index st <? List.length tokens) eqn:Hlt.
  - apply Nat.ltb_lt in Hlt.
    rewrite (nth_error_nth' tokens sentinel Hlt). reflexivity.
  - apply Nat.ltb_ge in Hlt. rewrite (nth_overflow tokens sentinel Hlt).
    reflexivity.
Qed.

Lemma parseStatement_eq (tokens : list Token) (st : PState) :
  parseStatement tokens st =
  let token := nth (index st) tokens sentinel in
  if TokenType_eqb (type token) IDENTIFIER then
    if String.eqb (value (nth (S (index st)) tokens sentinel)) ";" then
      Returned (Some (mkASTNode "Statement" (value token) []),
                mkPState (S (S (index st))) (cerr st))
    else
      Returned (None,
                mkPState (S (index st))
                  (cerr st ++ ["Expected semicolon after identifier."]))
  else
    Returned (None,
              mkPState (index st)
                (cerr st ++ ["Unexpected token: " ++ value token]%string)).
Proof.
  unfold parseStatement, bind at 1. rewrite getCurrentToken_eq. cbv zeta.
  destruct (TokenType_eqb (type (nth (index st) tokens sentinel)) IDENTIFIER).
  - unfold bind at 1, consumeToken. unfold bind at 1.
    rewrite getCurrentToken_eq. cbn [index cerr].
    destruct (String.eqb (value (nth (S (index st)) tokens sentinel)) ";");
      reflexivity.
  - reflexivity.
Qed.

(** The cursor never moves backwards and never passes the end of the
    vector: [size_t] arithmetic on it cannot wrap. *)
Lemma parseStatement_index_bound (tokens : list Token) (st : PState)
  (r : option ASTNode) (st' : PState) :
  index st < List.length tokens ->
  parseStatement tokens st = Returned (r, st') ->
  index st <= index st' <= List.length tokens.
Proof.
  intros Hlt. rewrite parseStatement_eq. cbv zeta.
  destruct (TokenType_eqb _ _).
  - destruct (String.eqb _ _) eqn:Hsep; intros [= <- <-]; cbn [index];
      [|lia].
    destruct (Nat.lt_ge_cases (S (index st)) (List.length tokens)); [lia|].
    rewrite (nth_overflow tokens sentinel) in Hsep by lia.
    discriminate Hsep.
  - intros [= <- <-]. cbn [index]. lia.
Qed.

(** A statement attempt on a token of another type than [IDENTIFIER] leaves
    the cursor where it is, so the loop of [parseProgram], which only tests
    the cursor, runs its body again on the same token, and so on: no amount
    of fuel lets it return. *)
Lemma parseProgram_loop_stuck (tokens : list Token) (fuel : nat) :
  forall (programNode : ASTNode) (st : PState),
    index st < List.length tokens ->
    type (nth (index st) tokens sentinel) <> IDENTIFIER ->
    parseProgram_loop tokens fuel programNode st = OutOfFuel.
Proof.
  induction fuel as [|fuel IH]; intros programNode st Hlt Hty; [reflexivity|].
  cbn [parseProgram_loop].
  apply Nat.ltb_lt in Hlt as Hltb. rewrite Hltb.
  unfold bind. rewrite parseStatement_eq. cbv zeta.
  apply TokenType_eqb_neq in Hty as Htyb. rewrite Htyb.
  apply IH; cbn [index]; assumption.
Qed.

Lemma lexing_more_fuel (fuel k : nat) (code : string) (tokens : list Token) :
  lexing fuel code = Returned tokens ->
  lexing (fuel + k) code = Returned tokens.
Proof. apply lexing_loop_more_fuel. Qed.

(* ===================================================================== *)
(** * Scenarios *)
(* ===================================================================== *)

(** C2 (fails on the code).  For the empty source text the token vector is
    exactly the sentinel, as claimed.  But [parse] does not return on it:
    the statement attempt on the sentinel writes "Unexpected token: " and
    leaves the cursor at 0, below the size 1 of the vector, so the loop of
    [parseProgram] never ends; no Program node is returned. *)
Theorem parse_empty_source_diverges :
  (forall k, lexing (1 + k) "" = Returned [sentinel]) /\
  (forall e, parseStatement [sentinel] (mkPState 0 e) =
             Returned (None, mkPState 0 (e ++ ["Unexpected token: "]))) /\
  (forall fuel e, parse fuel [sentinel] e = OutOfFuel).
Proof.
  split; [|split].
  - intros k. apply lexing_more_fuel. reflexivity.
  - intros e. rewrite parseStatement_eq. reflexivity.
  - intros fuel e. unfold parse, parseProgram.
    apply parseProgram_loop_stuck; cbn; [lia|discriminate].
Qed.

(** C3 (fails on the code).  For the source text "123;" the first token is
    [LITERAL "123"] and the statement attempt reports "Unexpected token:
    123", as claimed.  But the attempt leaves the cursor on that token, so
    the loop of [parseProgram] repeats it for ever: [parse] does not return
    and no Program node is produced. *)
Theorem parse_literal_source_diverges :
  (forall k, lexing (2 + k) "123;" =
             Returned [mkToken LITERAL "123"; mkToken UNKNOWN ";"]) /\
  (forall e, parseStatement [mkToken LITERAL "123"; mkToken UNKNOWN ";"]
               (mkPState 0 e) =
             Returned (None, mkPState 0 (e ++ ["Unexpected token: 123"]))) /\
  (forall fuel e,
      parse fuel [mkToken LITERAL "123"; mkToken UNKNOWN ";"] e = OutOfFuel).
Proof.
  split; [|split].
  - intros k. apply lexing_more_fuel. reflexivity.
  - intros e. rewrite parseStatement_eq. reflexivity.
  - intros fuel e. unfold parse, parseProgram.
    apply parseProgram_loop_stuck; cbn; [lia|discriminate].
Qed.

(** C4.  For the source text "foo;" the token vector is [IDENTIFIER "foo";
    UNKNOWN ";"]; [parse] returns on it (two units of fuel are enough),
    without any diagnostic, a Program node with exactly one child, a
    Statement node whose value is "foo". *)
Theorem parse_foo_statement :
  (forall k, lexing (2 + k) "foo;" =
             Returned [mkToken IDENTIFIER "foo"; mkToken UNKNOWN ";"]) /\
  (forall k e,
      parse (2 + k) [mkToken IDENTIFIER "foo"; mkToken UNKNOWN ";"] e =
      Returned (mkASTNode "Program" "" [mkASTNode "Statement" "foo" []],
                mkPState 2 e)).
Proof.
  split.
  - intros k. apply lexing_more_fuel. reflexivity.
  - intros k e. reflexivity.
Qed.

(* ===================================================================== *)
(** * Shape of the tree *)
(* ===================================================================== *)

(** What [parseProgram] maintains about the node it builds. *)
Lemma parseProgram_loop_shape (tokens : list Token) (fuel : nat) :
  forall (programNode : ASTNode) (st : PState) (root : ASTNode)
         (st' : PState),
    Forall (fun c => node_type c = "Statement" /\ children c = [])
           (children programNode) ->
    parseProgram_loop tokens fuel programNode st = Returned (root, st') ->
    node_type root = node_type programNode /\
    node_value root = node_value programNode /\
    Forall (fun c => node_type c = "Statement" /\ children c = [])
           (children root).
Proof.
  induction fuel as [|fuel IH]; intros programNode st root st' Hinv Hrun;
    [discriminate|].
  cbn [parseProgram_loop] in Hrun.
  destruct (index st <? List.length tokens).
  - unfold bind in Hrun. rewrite parseStatement_eq in Hrun. cbv zeta in Hrun.
    destruct (TokenType_eqb _ _); [destruct (String.eqb _ _)|].
    + apply IH in Hrun.
      * destruct programNode; exact Hrun.
      * destruct programNode as [t v cs]. cbn [push_back_child children] in *.
        apply Forall_app. split; [exact Hinv|].
        constructor; [split; reflexivity|constructor].
    + apply IH in Hrun; assumption.
    + apply IH in Hrun; assumption.
  - injection Hrun as <- <-. auto.
Qed.

(** C7.  Whenever [parse] returns, the root has type "Program" and an empty
    value, and every child of the root has type "Statement" and no children
    of its own. *)
Theorem parse_tree_shape (fuel : nat) (tokens : list Token)
  (cerr0 : list string) (root : ASTNode) (st : PState) :
  parse fuel tokens cerr0 = Returned (root, st) ->
  node_type root = "Program" /\
  node_value root = "" /\
  Forall (fun c => node_type c = "Statement" /\ children c = [])
         (children root).
Proof.
  unfold parse, parseProgram. intros Hrun.
  apply parseProgram_loop_shape in Hrun; [exact Hrun|constructor].
Qed.

Lemma parse_tree_shape_witness :
  parse 3 [mkToken IDENTIFIER "a"; mkToken IDENTIFIER "b";
           mkToken UNKNOWN ";"] [] =
    Returned (mkASTNode "Program" "" [mkASTNode "Statement" "b" []],
              mkPState 3 ["Expected semicolon after identifier."]) /\
  (node_type (mkASTNode "Program" "" [mkASTNode "Statement" "b" []])
     = "Program" /\
   node_value (mkASTNode "Program" "" [mkASTNode "Statement" "b" []]) = "" /\
   Forall (fun c => node_type c = "Statement" /\ children c = [])
     (children (mkASTNode "Program" "" [mkASTNode "Statement" "b" []]))).
Proof.
  split; [reflexivity|].
  apply (parse_tree_shape 3
           [mkToken IDENTIFIER "a"; mkToken IDENTIFIER "b";
            mkToken UNKNOWN ";"] []
           (mkASTNode "Program" "" [mkASTNode "Statement" "b" []])
           (mkPState 3 ["Expected semicolon after identifier."])).
  reflexivity.
Defined.

(* ===================================================================== *)
(** * Statement attempts *)
(* ===================================================================== *)

(** C8.  A statement attempt always returns, and its outcome is decided
    by the token under the cursor and the one behind it.
    - On a current token of another type than [IDENTIFIER] the attempt
      fails: it yields no node, writes the one line "Unexpected token: "
      followed by the text of that token, and leaves the cursor unchanged.
    - On an [IDENTIFIER] whose successor has another text than ";" the
      attempt fails: it yields no node, writes the one line "Expected
      semicolon after identifier.", and has moved the cursor past the
      identifier only, so that the token now under it is that successor.
    - On an [IDENTIFIER] followed by ";" it succeeds, with the Statement
      node of the identifier, both tokens consumed and nothing written.
    So every failed attempt (one that returns no node) has written exactly
    one line and left the failing token under the cursor. *)
Theorem parseStatement_failure_leaves_token (tokens : list Token)
  (st : PState) :
  exists (token next : Token) (r : option ASTNode) (st' : PState),
    getCurrentToken tokens st = Returned (token, st) /\
    getCurrentToken tokens (mkPState (S (index st)) (cerr st)) =
      Returned (next, mkPState (S (index st)) (cerr st)) /\
    parseStatement tokens st = Returned (r, st') /\
    (type token <> IDENTIFIER ->
       r = None /\
       index st' = index st /\
       cerr st' = cerr st ++ [("Unexpected token: " ++ value token)%string] /\
       getCurrentToken tokens st' = Returned (token, st')) /\
    (type token = IDENTIFIER -> value next <> ";" ->
       r = None /\
       index st' = S (index st) /\
       cerr st' = cerr st ++ ["Expected semicolon after identifier."] /\
       getCurrentToken tokens st' = Returned (next, st')) /\
    (type token = IDENTIFIER -> value next = ";" ->
       r = Some (mkASTNode "Statement" (value token) []) /\
       index st' = S (S (index st)) /\
       cerr st' = cerr st) /\
    match r with
    | Some _ => cerr st' = cerr st
    | None =>
        exists line, cerr st' = cerr st ++ [line] /\
        if TokenType_eqb (type token) IDENTIFIER then
          index st' = S (index st) /\
          line = "Expected semicolon after identifier." /\
          exists next,
            getCurrentToken tokens st' = Returned (next, st') /\
            next = nth (S (index st)) tokens sentinel /\
            value next <> ";"
        else
          index st' = index st /\
          line = ("Unexpected token: " ++ value token)%string
    end.
Proof.
  exists (nth (index st) tokens sentinel),
         (nth (S (index st)) tokens sentinel).
  rewrite !getCurrentToken_eq, parseStatement_eq. cbv zeta. cbn [index].
  destruct (TokenType_eqb (type (nth (index st) tokens sentinel)) IDENTIFIER)
    eqn:Hty.
  - apply TokenType_eqb_eq in Hty as Hident.
    destruct (String.eqb (value (nth (S (index st)) tokens sentinel)) ";")
      eqn:Hsep.
    + apply String.eqb_eq in Hsep as Hsemi.
      do 2 eexists. do 3 (split; [reflexivity|]).
      split; [intros Hne; contradiction|].
      split; [intros _ Hne; contradiction|].
      split; [intros _ _; repeat split|].
      reflexivity.
    + apply String.eqb_neq in Hsep as Hnot.
      do 2 eexists. do 3 (split; [reflexivity|]).
      split; [intros Hne; contradiction|].
      split; [|split; [intros _ Hsemi; contradiction|]].
      * intros _ _. rewrite getCurrentToken_eq. cbn [index cerr].
        repeat split.
      * eexists. split; [reflexivity|]. cbn [index].
        split; [reflexivity|]. split; [reflexivity|].
        eexists. rewrite getCurrentToken_eq. cbn [index].
        split; [reflexivity|]. split; [reflexivity|]. exact Hnot.
  - apply TokenType_eqb_neq in Hty as Hother.
    do 2 eexists. do 3 (split; [reflexivity|]).
    split; [|split; [intros Hid; contradiction|
                     split; [intros Hid; contradiction|]]].
    + intros _. rewrite getCurrentToken_eq. cbn [index cerr].
      repeat split.
    + eexists. split; [reflexivity|]. cbn [index]. split; reflexivity.
Qed.

Example parseStatement_unexpected_ex :
  parseStatement [mkToken LITERAL "7"; mkToken UNKNOWN ";"] (mkPState 0 []) =
  Returned (None, mkPState 0 ["Unexpected token: 7"]).
Proof. reflexivity. Qed.

Example parseStatement_missing_separator_ex :
  parseStatement [mkToken IDENTIFIER "a"; mkToken IDENTIFIER "b"]
    (mkPState 0 []) =
  Returned (None, mkPState 1 ["Expected semicolon after identifier."]).
Proof. reflexivity. Qed.

Example parseStatement_last_identifier_ex :
  parseStatement [mkToken IDENTIFIER "a"] (mkPState 0 []) =
  Returned (None, mkPState 1 ["Expected semicolon after identifier."]).
Proof. reflexivity. Qed.

(* ===================================================================== *)
(** * Reads of the token vector *)
(* ===================================================================== *)

Lemma parseProgram_loop_in_range (tokens : list Token) (fuel : nat) :
  forall (programNode : ASTNode) (st : PState),
    parseProgram_loop tokens fuel programNode st <> OutOfRange.
Proof.
  induction fuel as [|fuel IH]; intros programNode st; [discriminate|].
  cbn [parseProgram_loop].
  destruct (index st <? List.length tokens); [|discriminate].
  unfold bind. rewrite parseStatement_eq. cbv zeta.
  destruct (TokenType_eqb _ _); [destruct (String.eqb _ _)|]; apply IH.
Qed.

(** C10.  [getCurrentToken] is total: for every token vector and every
    cursor it returns a token and leaves the state alone; with the cursor
    at or past the end ([length tokens + k]) the token is the sentinel
    [{UNKNOWN, ""}], and no read of the vector takes place outside its
    bounds, neither there nor in [parseStatement] nor in the loop of
    [parseProgram]. *)
Theorem getCurrentToken_total (tokens : list Token) (st : PState) :
  (exists token, getCurrentToken tokens st = Returned (token, st)) /\
  (forall k e,
      getCurrentToken tokens (mkPState (List.length tokens + k) e) =
      Returned (sentinel, mkPState (List.length tokens + k) e)) /\
  (forall pre token post e,
      getCurrentToken (pre ++ token :: post) (mkPState (List.length pre) e) =
      Returned (token, mkPState (List.length pre) e)) /\
  parseStatement tokens st <> OutOfRange /\
  (forall fuel programNode,
      parseProgram_loop tokens fuel programNode st <> OutOfRange).
Proof.
  split; [|split; [|split; [|split]]].
  - eexists. apply getCurrentToken_eq.
  - intros k e. rewrite getCurrentToken_eq. cbn [index].
    rewrite nth_overflow by lia. reflexivity.
  - intros pre token post e. rewrite getCurrentToken_eq. cbn [index].
    rewrite nth_middle. reflexivity.
  - rewrite parseStatement_eq. cbv zeta.
    destruct (TokenType_eqb _ _); [destruct (String.eqb _ _)|]; discriminate.
  - intros fuel programNode. apply parseProgram_loop_in_range.
Qed.

(* ===================================================================== *)
(** * Serializer *)
(* ===================================================================== *)

(** Induction on a tree with the hypothesis available for every child. *)
Lemma ASTNode_children_ind (P : ASTNode -> Prop) :
  (forall t v cs, Forall P cs -> P (mkASTNode t v cs)) ->
  forall n, P n.
Proof.
  intros Hnode. fix IH 1. intros [t v cs]. apply Hnode.
  induction cs as [|c cs IHcs]; constructor.
  - apply IH.
  - exact IHcs.
Qed.

Lemma serializeNode_unfold (t v : string) (cs : list ASTNode) (oss : string) :
  serializeNode (mkASTNode t v cs) oss =
  (for_children (List.length cs) cs 0
     (((((oss ++ lit_type) ++ t) ++ lit_value) ++ v) ++ lit_children)
   ++ "] }")%string.
Proof. reflexivity. Qed.

Lemma for_children_cons (size : nat) (child : ASTNode)
  (rest : list ASTNode) (i : nat) (oss : string) :
  for_children size (child :: rest) i oss =
  for_children size rest (S i)
    (if negb (i =? size - 1) then (serializeNode child oss ++ ", ")%string
     else serializeNode child oss).
Proof. reflexivity. Qed.

(** What a call appends to the stream does not depend on what the stream
    holds already. *)
Lemma for_children_appends (size : nat) (rest : list ASTNode) :
  Forall (fun c => forall oss,
            serializeNode c oss = (oss ++ serializeNode c "")%string) rest ->
  forall i oss,
    for_children size rest i oss =
    (oss ++ for_children size rest i "")%string.
Proof.
  induction 1 as [|c rest Hc _ IH]; intros i oss.
  - cbn. now rewrite append_nil_r.
  - rewrite !for_children_cons. rewrite Hc.
    destruct (negb (i =? size - 1)).
    + rewrite IH. rewrite (IH _ (_ ++ ", ")%string).
      cbn [append]. now rewrite !append_assoc.
    + rewrite IH. rewrite (IH _ (serializeNode c "")).
      cbn [append]. now rewrite !append_assoc.
Qed.

Lemma serializeNode_appends (node : ASTNode) :
  forall oss, serializeNode node oss = (oss ++ serialize node)%string.
Proof.
  unfold serialize.
  induction node as [t v cs IH] using ASTNode_children_ind. intros oss.
  rewrite !serializeNode_unfold.
  rewrite (for_children_appends _ _ IH).
  rewrite (for_children_appends _ _ IH _ (_ ++ _)%string).
  cbn [append]. now rewrite !append_assoc.
Qed.

Lemma ast_eqb_eq (a : ASTNode) : forall b, ast_eqb a b = true -> a = b.
Proof.
  induction a as [t1 v1 cs1 IH] using ASTNode_children_ind.
  intros [t2 v2 cs2]. cbn [ast_eqb]. intros H.
  apply andb_true_iff in H. destruct H as [H Hcs].
  apply andb_true_iff in H. destruct H as [Ht Hv].
  apply String.eqb_eq in Ht. apply String.eqb_eq in Hv. subst t2 v2.
  f_equal. revert cs2 Hcs.
  induction IH as [|c cs1 Hc _ IHcs]; intros [|c2 cs2] Hcs;
    try discriminate; [reflexivity|].
  apply andb_true_iff in Hcs. destruct Hcs as [Hhd Htl].
  f_equal; [apply Hc; exact Hhd | apply IHcs; exact Htl].
Qed.

(** Two children are separated by [", "], and nothing follows the last. *)
Example serialize_two_statements :
  serialize (mkASTNode "Program" ""
               [mkASTNode "Statement" "a" []; mkASTNode "Statement" "b" []]) =
  (lit_type ++ "Program" ++ lit_value ++ "" ++ lit_children
   ++ (lit_type ++ "Statement" ++ lit_value ++ "a" ++ lit_children ++ "] }")
   ++ ", "
   ++ (lit_type ++ "Statement" ++ lit_value ++ "b" ++ lit_children ++ "] }")
   ++ "] }")%string.
Proof. reflexivity. Qed.

(** C9.  The text that [serialize] returns is a function of the tree alone:
    two structurally equal trees (in particular the same tree, serialized
    twice) give identical text, and what [serializeNode] appends for a tree
    is that text whatever the stream held before the call. *)
Theorem serialize_deterministic (t1 t2 : ASTNode) :
  ast_eqb t1 t2 = true ->
  serialize t1 = serialize t2 /\
  (forall oss, serializeNode t1 oss = (oss ++ serialize t2)%string).
Proof.
  intros Heq. apply ast_eqb_eq in Heq. subst t2.
  split; [reflexivity|]. apply serializeNode_appends.
Qed.

Lemma serialize_deterministic_witness :
  ast_eqb (mkASTNode "Program" "" [mkASTNode "Statement" "foo" []])
          (mkASTNode "Program" "" [mkASTNode "Statement" "foo" []]) = true /\
  (serialize (mkASTNode "Program" "" [mkASTNode "Statement" "foo" []]) =
   serialize (mkASTNode "Program" "" [mkASTNode "Statement" "foo" []]) /\
   (forall oss,
       serializeNode (mkASTNode "Program" "" [mkASTNode "Statement" "foo" []])
         oss =
       (oss ++ serialize
                 (mkASTNode "Program" "" [mkASTNode "Statement" "foo" []]))
         %string)).
Proof.
  split; [reflexivity|].
  apply (serialize_deterministic
           (mkASTNode "Program" "" [mkASTNode "Statement" "foo" []])
           (mkASTNode "Program" "" [mkASTNode "Statement" "foo" []])).
  reflexivity.
Defined.

(* ===================================================================== *)
(** * Further properties of the lexer *)
(* ===================================================================== *)

Lemma substring_zero (s : string) (n : nat) : substring n 0 s = "".
Proof.
  revert n; induction s as [|a s IH]; intros [|n]; simpl; auto.
Qed.

Lemma substring_step (s : string) (n m : nat) (c : ascii) :
  String.get n s = Some c ->
  substring n (S m) s = String c (substring (S n) m s).
Proof.
  revert n; induction s as [|a s IH]; intros [|n] H; simpl in *;
    try discriminate.
  - injection H as ->. destruct s; destruct m; reflexivity.
  - rewrite (IH n H). reflexivity.
Qed.

Lemma all_chars_app (p : ascii -> bool) (s1 s2 : string) :
  all_chars p (s1 ++ s2) = all_chars p s1 && all_chars p s2.
Proof.
  induction s1 as [|c s1 IH]; simpl; [reflexivity|].
  rewrite IH. apply andb_assoc.
Qed.

(** The postcondition of the scanning loop: what it appends is the slice
    of the buffer between the position it started at and the position it
    stopped at, every character of the slice is in the class, and the
    character it stopped on, if any, is not. *)
Lemma lex_while_slice (p : ascii -> bool) (code : string) (pos : nat)
  (text : string) :
  fst (lex_while p code pos text) =
    (text ++ substring pos (snd (lex_while p code pos text) - pos) code)
      %string /\
  all_chars p (substring pos (snd (lex_while p code pos text) - pos) code)
    = true /\
  (forall c, String.get (snd (lex_while p code pos text)) code = Some c ->
             p c = false).
Proof.
  funelim (lex_while p code pos text); cbn [fst snd].
  - rewrite Nat.sub_diag, substring_zero, append_nil_r.
    repeat split. congruence.
  - destruct H as (Htext & Hall & Hstop).
    pose proof (lex_while_ge p code (S pos) (text ++ string_of_char c)).
    replace (snd (lex_while p code (S pos) (text ++ string_of_char c)) - pos)
      with (S (snd (lex_while p code (S pos) (text ++ string_of_char c))
               - S pos)) by lia.
    rewrite (substring_step _ _ _ _ e).
    split; [|split].
    + rewrite Htext, <- append_assoc. reflexivity.
    + cbn [all_chars]. rewrite e0, Hall. reflexivity.
    + exact Hstop.
  - rewrite Nat.sub_diag, substring_zero, append_nil_r.
    repeat split. congruence.
Qed.

Lemma skipWhitespace_slice (code : string) (pos : nat) :
  all_chars isspace (substring pos (skipWhitespace code pos - pos) code)
  = true.
Proof.
  funelim (skipWhitespace code pos).
  - now rewrite Nat.sub_diag, substring_zero.
  - pose proof (skipWhitespace_ge code (S pos)).
    replace (skipWhitespace code (S pos) - pos)
      with (S (skipWhitespace code (S pos) - S pos)) by lia.
    rewrite (substring_step _ _ _ _ e). cbn [all_chars].
    rewrite e0. exact H.
  - now rewrite Nat.sub_diag, substring_zero.
Qed.

Lemma substring_past_end (s : string) (n m : nat) :
  String.get n s = None -> substring n m s = "".
Proof.
  revert n m; induction s as [|a s IH]; intros [|n] [|m] H; simpl in *;
    try discriminate; try reflexivity; apply IH; exact H.
Qed.

Lemma digit_not_ident_start (c : ascii) :
  isdigit c = true -> is_ident_start c = false.
Proof.
  destruct c as [b0 b1 b2 b3 b4 b5 b6 b7].
  destruct b0, b1, b2, b3, b4, b5, b6, b7;
    vm_compute; intros H; solve [reflexivity | discriminate H].
Qed.

Lemma digit_not_space (c : ascii) : isdigit c = true -> isspace c = false.
Proof.
  destruct c as [b0 b1 b2 b3 b4 b5 b6 b7].
  destruct b0, b1, b2, b3, b4, b5, b6, b7;
    vm_compute; intros H; solve [reflexivity | discriminate H].
Qed.

Lemma getNextToken_cases (code : string) (pos : nat) :
  let start := skipWhitespace code pos in
  let token := fst (getNextToken code pos) in
  let pos' := snd (getNextToken code pos) in
  all_chars isspace (substring pos (start - pos) code) = true /\
  lexer_token token = true /\
  match type token with
  | UNKNOWN => pos' = start /\ value token = substring start 1 code
  | _ => start < pos' /\ value token = substring start (pos' - start) code
  end.
Proof.
  cbv zeta. split; [apply skipWhitespace_slice|].
  unfold getNextToken.
  destruct (String.get (skipWhitespace code pos) code) as [c|] eqn:Hget.
  - pose proof (skipWhitespace_stops code pos c Hget) as Hsp.
    destruct (is_ident_start c) eqn:Hstart; [|destruct (isdigit c) eqn:Hdig].
    + unfold lexIdentifier.
      pose proof (lex_while_slice is_ident_char code
                    (skipWhitespace code pos) "") as (Htext & Hall & _).
      pose proof (lex_while_progress is_ident_char code _ "" c Hget
                    (ident_start_is_ident_char c Hstart)) as Hprog.
      destruct (lex_while is_ident_char code (skipWhitespace code pos) "")
        as [identifier q].
      cbn [fst snd type value] in *. cbn [append] in Htext. subst identifier.
      split; [|split; [exact Hprog|reflexivity]].
      unfold lexer_token. cbn [type value].
      replace (q - skipWhitespace code pos)
        with (S (q - S (skipWhitespace code pos))) in * by lia.
      rewrite (substring_step _ _ _ _ Hget) in *.
      cbn [all_chars] in Hall. apply andb_true_iff in Hall.
      rewrite Hstart. exact (proj2 Hall).
    + unfold lexLiteral.
      pose proof (lex_while_slice isdigit code
                    (skipWhitespace code pos) "") as (Htext & Hall & _).
      pose proof (lex_while_progress isdigit code _ "" c Hget Hdig) as Hprog.
      destruct (lex_while isdigit code (skipWhitespace code pos) "")
        as [literal q].
      cbn [fst snd type value] in *. cbn [append] in Htext. subst literal.
      split; [|split; [exact Hprog|reflexivity]].
      unfold lexer_token. cbn [type value].
      replace (q - skipWhitespace code pos)
        with (S (q - S (skipWhitespace code pos))) in * by lia.
      rewrite (substring_step _ _ _ _ Hget) in *.
      cbn [all_chars] in Hall. apply andb_true_iff in Hall.
      rewrite Hdig. exact (proj2 Hall).
    + cbn [fst snd type value].
      rewrite (substring_step _ _ _ _ Hget), substring_zero.
      split; [|split; reflexivity].
      unfold lexer_token, string_of_char. cbn [type value].
      rewrite Hsp, Hstart, Hdig. reflexivity.
  - cbn [fst snd type value sentinel].
    rewrite (substring_past_end _ _ _ Hget).
    split; [reflexivity|split; reflexivity].
Qed.

(** X1.  Anatomy of a call of [getNextToken], for every buffer and every
    position.  The characters skipped in front of the token are white
    space.  The token is of type [IDENTIFIER], [LITERAL] or [UNKNOWN] and
    its text has the form of that type ([lexer_token]); the types [KEYWORD],
    [OPERATOR], [COMMENT] and [WHITESPACE] are never produced.  The text of
    an identifier or literal is exactly the slice of the buffer between the
    end of the white space and the new position, which lies beyond it; the
    text of an [UNKNOWN] token is the character under the new position
    (nothing at the end of the buffer), which is not consumed. *)
Theorem getNextToken_anatomy (code : string) (pos : nat) :
  let start := skipWhitespace code pos in
  let token := fst (getNextToken code pos) in
  let pos' := snd (getNextToken code pos) in
  all_chars isspace (substring pos (start - pos) code) = true /\
  lexer_token token = true /\
  match type token with
  | UNKNOWN => pos' = start /\ value token = substring start 1 code
  | _ => start < pos' /\ value token = substring start (pos' - start) code
  end.
Proof.
  pose proof (getNextToken_cases code pos) as H.
  cbv zeta in *. destruct H as (Hskip & Hform & Hslice).
  split; [exact Hskip|split; [exact Hform|exact Hslice]].
Qed.

Example getNextToken_literal_after_spaces_ex :
  getNextToken "ab  12cd" 2 = (mkToken LITERAL "12", 6).
Proof. reflexivity. Qed.

(** X2.  Once a call has returned an [UNKNOWN] token, be it the end
    sentinel or an unrecognized character, every later call returns the
    same token and leaves the position where it is: the lexer never gets
    past the first character that is neither white space, a letter, an
    underscore nor a digit. *)
Theorem getNextToken_unknown_repeats (code : string) (pos : nat) :
  type (fst (getNextToken code pos)) = UNKNOWN ->
  forall n,
    getNextToken code (pos_after (S n) code pos) = getNextToken code pos /\
    pos_after (S n) code pos = skipWhitespace code pos.
Proof.
  intros Hty.
  assert (Hsnd : snd (getNextToken code pos) = skipWhitespace code pos).
  { pose proof (getNextToken_cases code pos) as (_ & _ & H).
    cbv zeta in H. rewrite Hty in H. exact (proj1 H). }
  assert (Hfix : skipWhitespace code (skipWhitespace code pos)
                 = skipWhitespace code pos).
  { destruct (String.get (skipWhitespace code pos) code) as [c|] eqn:Hget.
    - apply (skipWhitespace_fixed _ _ c Hget).
      apply (skipWhitespace_stops code pos c Hget).
    - apply skipWhitespace_at_end. exact Hget. }
  assert (Hagain : getNextToken code (skipWhitespace code pos)
                   = getNextToken code pos).
  { unfold getNextToken. rewrite Hfix. reflexivity. }
  induction n as [|n IH].
  - cbn [pos_after]. rewrite Hsnd. split; [exact Hagain|reflexivity].
  - destruct IH as [IHcall IHpos].
    change (pos_after (S (S n)) code pos)
      with (pos_after (S n) code (snd (getNextToken code pos))).
    rewrite Hsnd.
    assert (Hshift : forall m p, pos_after (S m) code p
              = snd (getNextToken code (pos_after m code p))).
    { induction m as [|m IHm]; intros p; [reflexivity|].
      change (pos_after (S (S m)) code p)
        with (pos_after (S m) code (snd (getNextToken code p))).
      rewrite IHm. reflexivity. }
    assert (Hpos : pos_after (S n) code (skipWhitespace code pos)
                   = skipWhitespace code pos).
    { clear IHcall IHpos. induction n as [|n IHn].
      - cbn [pos_after]. rewrite Hagain. exact Hsnd.
      - rewrite Hshift, IHn, Hagain. exact Hsnd. }
    rewrite Hpos. split; [exact Hagain|reflexivity].
Qed.

Lemma getNextToken_unknown_repeats_witness :
  type (fst (getNextToken "ab ?cd" 2)) = UNKNOWN /\
  (forall n,
      getNextToken "ab ?cd" (pos_after (S n) "ab ?cd" 2)
        = getNextToken "ab ?cd" 2 /\
      pos_after (S n) "ab ?cd" 2 = skipWhitespace "ab ?cd" 2).
Proof.
  split; [reflexivity|].
  apply (getNextToken_unknown_repeats "ab ?cd" 2). reflexivity.
Defined.

(** X3.  Let the buffer hold, behind any white space [ws], a run
    [String c run] of digits that cannot be extended ([post] is empty or
    starts with a character that is not a digit, a letter included).  The
    call of [getNextToken] made in front of [ws] returns one token of type
    [LITERAL] whose text is the whole run, and leaves the position right
    behind the run. *)
Theorem getNextToken_literal_run
  (pre ws : string) (c : ascii) (run post : string) :
  all_chars isspace ws = true ->
  isdigit c = true ->
  all_chars isdigit run = true ->
  stops_at isdigit post = true ->
  getNextToken (pre ++ ws ++ String c run ++ post) (String.length pre) =
  (mkToken LITERAL (String c run),
   String.length pre + String.length ws + String.length (String c run)).
Proof.
  intros Hws Hdig Hrun Hpost.
  unfold getNextToken.
  rewrite skipWhitespace_run; [|exact Hws|].
  2:{ unfold stops_at. simpl.
      rewrite (digit_not_space c Hdig). reflexivity. }
  replace (pre ++ ws ++ String c run ++ post)%string
    with ((pre ++ ws) ++ String c run ++ post)%string
    by (rewrite <- append_assoc; reflexivity).
  rewrite <- length_append.
  rewrite get_at_junction. cbn [String.get append].
  rewrite (digit_not_ident_start c Hdig), Hdig. unfold lexLiteral.
  change (String c (run ++ post))%string with (String c run ++ post)%string.
  rewrite (lex_while_run isdigit (String c run) (pre ++ ws) post "").
  - reflexivity.
  - cbn [all_chars]. rewrite Hdig, Hrun. reflexivity.
  - exact Hpost.
Qed.

Lemma getNextToken_literal_run_witness :
  all_chars isspace " " = true /\
  isdigit "4" = true /\
  all_chars isdigit "2" = true /\
  stops_at isdigit "abc" = true /\
  getNextToken ("x;" ++ " " ++ String "4" "2" ++ "abc") 2 =
  (mkToken LITERAL "42", 2 + 1 + 2).
Proof.
  repeat (split; [reflexivity|]).
  apply (getNextToken_literal_run "x;" " " "4" "2" "abc"); reflexivity.
Defined.

(** X4.  When only white space is left between the position and the end
    of the buffer (in particular at the end itself), [getNextToken] returns
    the sentinel [{UNKNOWN, ""}] and moves the position to the end. *)
Theorem getNextToken_end_of_input (pre ws : string) :
  all_chars isspace ws = true ->
  getNextToken (pre ++ ws) (String.length pre) =
  (sentinel, String.length (pre ++ ws)).
Proof.
  intros Hws. unfold getNextToken.
  pose proof (skipWhitespace_run ws pre "" Hws eq_refl) as Hskip.
  rewrite append_nil_r in Hskip. rewrite Hskip.
  rewrite <- length_append.
  rewrite (get_ge_None (pre ++ ws) _ (Nat.le_refl _)). reflexivity.
Qed.

Lemma getNextToken_end_of_input_witness :
  all_chars isspace "  " = true /\
  getNextToken ("foo" ++ "  ") 3 = (sentinel, String.length ("foo" ++ "  ")).
Proof.
  split; [reflexivity|].
  apply (getNextToken_end_of_input "foo" "  "). reflexivity.
Defined.

(* ===================================================================== *)
(** * Further properties of the token vector *)
(* ===================================================================== *)

Lemma calls_lexer_token (n : nat) :
  forall code pos, Forall (fun t => lexer_token t = true) (calls n code pos).
Proof.
  induction n as [|n IH]; intros code pos; cbn [calls]; [constructor|].
  pose proof (getNextToken_cases code pos) as (_ & Hform & _).
  cbv zeta in Hform.
  destruct (getNextToken code pos) as [token pos'].
  constructor; [exact Hform|apply IH].
Qed.

(** The vector that the lexing loop returns is a run of well-formed tokens
    of a type other than [UNKNOWN], followed by one well-formed [UNKNOWN]
    token. *)
Lemma lexing_stream_shape (fuel : nat) (code : string)
  (tokens : list Token) :
  lexing fuel code = Returned tokens ->
  exists init u,
    tokens = init ++ [u] /\
    Forall (fun t => lexer_token t = true /\ type t <> UNKNOWN) init /\
    lexer_token u = true /\ type u = UNKNOWN.
Proof.
  intros Hrun.
  apply (lexing_more_fuel _ (S (String.length code))) in Hrun.
  unfold lexing in Hrun.
  destruct (lexing_loop_returns (fuel + S (String.length code)) code 0 []
              ltac:(lia) ltac:(lia)) as (n & Hret & Hlast & Hinit).
  rewrite Hret in Hrun. injection Hrun as <-. cbn [app].
  pose proof (calls_lexer_token (S n) code 0) as Hform.
  assert (Hne : calls (S n) code 0 <> []).
  { cbn [calls]. destruct (getNextToken code 0). discriminate. }
  rewrite (app_removelast_last sentinel Hne) in Hform.
  apply Forall_app in Hform. destruct Hform as [Hform_init Hform_last].
  exists (removelast (calls (S n) code 0)), (last (calls (S n) code 0) sentinel).
  split; [apply app_removelast_last; exact Hne|].
  split; [|split; [now inversion Hform_last|exact Hlast]].
  rewrite Forall_forall in *. intros t Ht. split; auto.
Qed.

(** X5.  Whatever the source text, every token of the vector that the
    lexing loop of [main] builds has the form of its type ([lexer_token]):
    identifiers are a letter or underscore followed by letters, digits and
    underscores, literals are non-empty digit strings, and the only other
    type is [UNKNOWN], with at most one character of text.  Every token
    before the last is an [IDENTIFIER] or a [LITERAL]; no token of type
    [KEYWORD], [OPERATOR], [COMMENT] or [WHITESPACE] occurs. *)
Theorem lexing_tokens_well_formed (fuel : nat) (code : string)
  (tokens : list Token) :
  lexing fuel code = Returned tokens ->
  forallb lexer_token tokens = true /\
  Forall (fun t => type t = IDENTIFIER \/ type t = LITERAL)
         (removelast tokens).
Proof.
  intros Hrun.
  destruct (lexing_stream_shape fuel code tokens Hrun)
    as (init & u & -> & Hinit & Hu & _).
  split.
  - rewrite forallb_app. cbn [forallb]. rewrite Hu.
    rewrite andb_true_r. apply forallb_forall. intros t Ht.
    rewrite Forall_forall in Hinit. apply Hinit. exact Ht.
  - rewrite removelast_last. rewrite Forall_forall in *.
    intros t Ht. destruct (Hinit t Ht) as [Hform Hty].
    unfold lexer_token in Hform.
    destruct (type t); auto; try discriminate. congruence.
Qed.

Lemma lexing_tokens_well_formed_witness :
  lexing 5 "ab 12 ;x" =
    Returned [mkToken IDENTIFIER "ab"; mkToken LITERAL "12";
              mkToken UNKNOWN ";"] /\
  (forallb lexer_token
     [mkToken IDENTIFIER "ab"; mkToken LITERAL "12"; mkToken UNKNOWN ";"]
   = true /\
   Forall (fun t => type t = IDENTIFIER \/ type t = LITERAL)
     (removelast
        [mkToken IDENTIFIER "ab"; mkToken LITERAL "12";
         mkToken UNKNOWN ";"])).
Proof.
  split; [reflexivity|].
  apply (lexing_tokens_well_formed 5 "ab 12 ;x"). reflexivity.
Defined.

(* ===================================================================== *)
(** * Further properties of the parser *)
(* ===================================================================== *)

Lemma parseProgram_loop_more_fuel (tokens : list Token) (fuel : nat) :
  forall (k : nat) (programNode : ASTNode) (st : PState)
         (r : ASTNode * PState),
    parseProgram_loop tokens fuel programNode st = Returned r ->
    parseProgram_loop tokens (fuel + k) programNode st = Returned r.
Proof.
  induction fuel as [|fuel IH]; intros k programNode st r Hrun;
    [discriminate|].
  cbn [parseProgram_loop Nat.add] in *.
  destruct (index st <? List.length tokens); [|exact Hrun].
  unfold bind in *. rewrite parseStatement_eq in *. cbv zeta in *.
  destruct (TokenType_eqb _ _); [destruct (String.eqb _ _)|];
    apply IH; exact Hrun.
Qed.

(** With the cursor at the end the loop returns the node as it is. *)
Lemma parseProgram_loop_at_end (tokens : list Token) (fuel : nat)
  (programNode : ASTNode) (st : PState) :
  List.length tokens <= index st ->
  parseProgram_loop tokens (S fuel) programNode st =
  Returned (programNode, st).
Proof.
  intros Hend. cbn [parseProgram_loop].
  apply Nat.ltb_ge in Hend. rewrite Hend. reflexivity.
Qed.

Lemma repeat_snoc_app {A : Type} (l : list A) (x : A) (k : nat) :
  (l ++ [x]) ++ repeat x k = l ++ repeat x (S k).
Proof. rewrite <- app_assoc. reflexivity. Qed.

Lemma parseProgram_loop_accounting (tokens : list Token) (fuel : nat) :
  forall (programNode : ASTNode) (st : PState) (root : ASTNode)
         (st' : PState),
    index st <= List.length tokens ->
    parseProgram_loop tokens fuel programNode st = Returned (root, st') ->
    index st' = List.length tokens /\
    exists k m,
      cerr st' = cerr st ++ repeat expected_semicolon k /\
      List.length (children root) = List.length (children programNode) + m /\
      index st + 2 * m + k = List.length tokens.
Proof.
  induction fuel as [|fuel IH]; intros programNode st root st' Hle Hrun;
    [discriminate|].
  cbn [parseProgram_loop] in Hrun.
  destruct (index st <? List.length tokens) eqn:Hlt.
  - apply Nat.ltb_lt in Hlt.
    unfold bind in Hrun. rewrite parseStatement_eq in Hrun.
    cbv zeta in Hrun.
    destruct (TokenType_eqb (type (nth (index st) tokens sentinel))
                IDENTIFIER) eqn:Hty.
    + destruct (String.eqb (value (nth (S (index st)) tokens sentinel)) ";")
        eqn:Hsep.
      * assert (Hnext : S (index st) < List.length tokens).
        { destruct (Nat.lt_ge_cases (S (index st)) (List.length tokens));
            [assumption|].
          rewrite (nth_overflow tokens sentinel) in Hsep by lia.
          discriminate Hsep. }
        apply IH in Hrun; [|cbn [index]; lia].
        destruct Hrun as (Hend & k & m & Hcerr & Hlen & Hsum).
        cbn [index cerr] in *. split; [exact Hend|].
        exists k, (S m). split; [exact Hcerr|].
        destruct programNode as [t v cs].
        cbn [push_back_child children] in *.
        rewrite length_app in Hlen. cbn [List.length] in Hlen. lia.
      * apply IH in Hrun; [|cbn [index]; lia].
        destruct Hrun as (Hend & k & m & Hcerr & Hlen & Hsum).
        cbn [index cerr] in *. split; [exact Hend|].
        exists (S k), m. split; [|split; [exact Hlen|lia]].
        rewrite Hcerr. apply repeat_snoc_app.
    + apply TokenType_eqb_neq in Hty.
      rewrite parseProgram_loop_stuck in Hrun; [discriminate| |];
        cbn [index]; assumption.
  - apply Nat.ltb_ge in Hlt. injection Hrun as <- <-.
    split; [lia|]. exists 0, 0. cbn [repeat]. rewrite app_nil_r.
    repeat split; lia.
Qed.

(** X6.  Whenever [parse] returns, the cursor is exactly at the end of the
    token vector, every line written to [std::cerr] during the parse is
    "Expected semicolon after identifier." (the other diagnostic never
    precedes a return), and the tokens are accounted for: two for each
    Statement child of the root and one for each diagnostic. *)
Theorem parse_accounting (fuel : nat) (tokens : list Token)
  (cerr0 : list string) (root : ASTNode) (st : PState) :
  parse fuel tokens cerr0 = Returned (root, st) ->
  index st = List.length tokens /\
  exists k,
    cerr st = cerr0 ++ repeat expected_semicolon k /\
    List.length tokens = 2 * List.length (children root) + k.
Proof.
  unfold parse, parseProgram. intros Hrun.
  apply parseProgram_loop_accounting in Hrun; [|cbn [index]; lia].
  destruct Hrun as (Hend & k & m & Hcerr & Hlen & Hsum).
  cbn [index cerr children List.length] in *.
  split; [exact Hend|]. exists k. split; [exact Hcerr|lia].
Qed.

Lemma parse_accounting_witness :
  parse 3 [mkToken IDENTIFIER "a"; mkToken IDENTIFIER "b";
           mkToken UNKNOWN ";"] [] =
    Returned (mkASTNode "Program" "" [mkASTNode "Statement" "b" []],
              mkPState 3 [expected_semicolon]) /\
  (index (mkPState 3 [expected_semicolon]) = 3 /\
   exists k,
     cerr (mkPState 3 [expected_semicolon])
       = [] ++ repeat expected_semicolon k /\
     3 = 2 * List.length
               (children
                  (mkASTNode "Program" "" [mkASTNode "Statement" "b" []]))
         + k).
Proof.
  split; [reflexivity|].
  apply (parse_accounting 3
           [mkToken IDENTIFIER "a"; mkToken IDENTIFIER "b";
            mkToken UNKNOWN ";"] []
           (mkASTNode "Program" "" [mkASTNode "Statement" "b" []])
           (mkPState 3 [expected_semicolon])).
  reflexivity.
Defined.

(** One iteration of the loop on an identifier followed by a token whose
    text is ";": a Statement child is appended, two tokens are consumed. *)
Lemma parseProgram_loop_step_statement (pre : list Token) (v : string)
  (ty : TokenType) (rest : list Token) (fuel : nat) (programNode : ASTNode)
  (e : list string) :
  parseProgram_loop (pre ++ mkToken IDENTIFIER v :: mkToken ty ";" :: rest)
    (S fuel) programNode (mkPState (List.length pre) e) =
  parseProgram_loop (pre ++ mkToken IDENTIFIER v :: mkToken ty ";" :: rest)
    fuel (push_back_child programNode (mkASTNode "Statement" v []))
    (mkPState (S (S (List.length pre))) e).
Proof.
  cbn [parseProgram_loop index].
  assert (Hlt : (List.length pre <?
                 List.length (pre ++ mkToken IDENTIFIER v
                                  :: mkToken ty ";" :: rest)) = true).
  { apply Nat.ltb_lt. rewrite length_app. cbn [List.length]. lia. }
  rewrite Hlt. unfold bind. rewrite parseStatement_eq. cbv zeta.
  cbn [index cerr].
  rewrite nth_middle. cbn [type value TokenType_eqb].
  replace (S (List.length pre)) with (List.length pre + 1) at 1 by lia.
  rewrite app_nth2_plus. cbn [nth value]. reflexivity.
Qed.

(** One iteration of the loop on an identifier followed by a token with
    another text than ";": one diagnostic, one token consumed, no child. *)
Lemma parseProgram_loop_step_missing (pre : list Token) (v : string)
  (next : Token) (rest : list Token) (fuel : nat) (programNode : ASTNode)
  (e : list string) :
  value next <> ";" ->
  parseProgram_loop (pre ++ mkToken IDENTIFIER v :: next :: rest)
    (S fuel) programNode (mkPState (List.length pre) e) =
  parseProgram_loop (pre ++ mkToken IDENTIFIER v :: next :: rest)
    fuel programNode
    (mkPState (S (List.length pre)) (e ++ [expected_semicolon])).
Proof.
  intros Hsep. cbn [parseProgram_loop index].
  assert (Hlt : (List.length pre <?
                 List.length (pre ++ mkToken IDENTIFIER v :: next :: rest))
                = true).
  { apply Nat.ltb_lt. rewrite length_app. cbn [List.length]. lia. }
  rewrite Hlt. unfold bind. rewrite parseStatement_eq. cbv zeta.
  cbn [index cerr].
  rewrite nth_middle. cbn [type value TokenType_eqb].
  replace (S (List.length pre)) with (List.length pre + 1) at 1 by lia.
  rewrite app_nth2_plus. cbn [nth].
  apply String.eqb_neq in Hsep. rewrite Hsep. reflexivity.
Qed.

(** Running through a sequence of well-formed statements costs one
    iteration each, appends their nodes in order and writes nothing. *)
Lemma parseProgram_loop_statements (stmts : list (string * TokenType)) :
  forall (pre rest : list Token) (fuel : nat) (t v : string)
         (cs : list ASTNode) (e : list string),
    parseProgram_loop (pre ++ flat_map statement_tokens stmts ++ rest)
      (List.length stmts + fuel) (mkASTNode t v cs)
      (mkPState (List.length pre) e) =
    parseProgram_loop (pre ++ flat_map statement_tokens stmts ++ rest)
      fuel
      (mkASTNode t v
         (cs ++ map (fun s => mkASTNode "Statement" (fst s) []) stmts))
      (mkPState (List.length pre + 2 * List.length stmts) e).
Proof.
  induction stmts as [|[x ty] stmts IH]; intros pre rest fuel t v cs e.
  - cbn. rewrite app_nil_r, Nat.add_0_r. reflexivity.
  - cbn [flat_map statement_tokens fst snd List.length Nat.add map app].
    rewrite parseProgram_loop_step_statement.
    cbn [push_back_child].
    replace (pre ++ mkToken IDENTIFIER x :: mkToken ty ";"
                 :: flat_map statement_tokens stmts ++ rest)
      with ((pre ++ [mkToken IDENTIFIER x; mkToken ty ";"])
              ++ flat_map statement_tokens stmts ++ rest)
      by (rewrite <- app_assoc; reflexivity).
    replace (S (S (List.length pre)))
      with (List.length (pre ++ [mkToken IDENTIFIER x; mkToken ty ";"]))
      by (rewrite length_app; cbn [List.length]; lia).
    rewrite IH. rewrite <- !app_assoc. cbn [app].
    rewrite length_app. cbn [List.length].
    match goal with
    | |- parseProgram_loop _ _ _ (mkPState ?a _) =
         parseProgram_loop _ _ _ (mkPState ?b _) =>
        replace a with b by lia
    end.
    reflexivity.
Qed.

(** X7.  The grammar [Program := Statement*], [Statement := Identifier
    ";"] is accepted: on a token vector made of pairs of an identifier and
    a token whose text is ";" (of whatever type: only the text is compared)
    [parse] returns, given one unit of fuel per statement and one more,
    a Program node whose children are the Statement nodes of the
    identifiers, in order; it consumes the whole vector and writes no
    diagnostic. *)
Theorem parse_statement_sequence (stmts : list (string * TokenType))
  (k : nat) (cerr0 : list string) :
  parse (List.length stmts + S k) (flat_map statement_tokens stmts) cerr0 =
  Returned
    (mkASTNode "Program" ""
       (map (fun s => mkASTNode "Statement" (fst s) []) stmts),
     mkPState (2 * List.length stmts) cerr0).
Proof.
  unfold parse, parseProgram.
  pose proof (parseProgram_loop_statements stmts [] [] (S k)
                "Program" "" [] cerr0) as Hrun.
  cbn [app List.length Nat.add] in Hrun. rewrite app_nil_r in Hrun.
  rewrite Hrun. apply parseProgram_loop_at_end.
  cbn [index]. clear Hrun.
  induction stmts as [|s stmts IH]; cbn [flat_map statement_tokens app
                                            List.length] in *; lia.
Qed.

Example parse_two_statements_ex :
  parse 3 (flat_map statement_tokens [("a", UNKNOWN); ("b", OPERATOR)]) [] =
  Returned (mkASTNode "Program" ""
              [mkASTNode "Statement" "a" []; mkASTNode "Statement" "b" []],
            mkPState 4 []).
Proof. reflexivity. Qed.

(** X8.  [parse] does not return on a token vector in which a sequence of
    well-formed statements (possibly none) is followed by a token of
    another type than [IDENTIFIER]: the statement attempt on that token
    fails without consuming it, and the loop of [parseProgram] repeats the
    attempt whatever the fuel.  In particular this is so for every vector
    that starts with such a token, and for every vector that ends with the
    end sentinel behind well-formed statements. *)
Theorem parse_diverges_at_non_identifier
  (stmts : list (string * TokenType)) (t : Token) (rest : list Token) :
  type t <> IDENTIFIER ->
  forall fuel cerr0,
    parse fuel (flat_map statement_tokens stmts ++ t :: rest) cerr0
    = OutOfFuel.
Proof.
  intros Hty fuel cerr0. unfold parse, parseProgram.
  destruct (Nat.le_gt_cases (List.length stmts) fuel) as [Hle | Hgt].
  - replace fuel with (List.length stmts + (fuel - List.length stmts))
      by lia.
    pose proof (parseProgram_loop_statements stmts [] (t :: rest)
                  (fuel - List.length stmts) "Program" "" [] cerr0) as Hrun.
    cbn [app List.length Nat.add] in Hrun. rewrite Hrun.
    assert (Hlen : List.length (flat_map statement_tokens stmts)
                   = 2 * List.length stmts).
    { clear. induction stmts as [|s stmts IH];
        cbn [flat_map statement_tokens app List.length] in *; lia. }
    apply parseProgram_loop_stuck; cbn [index]; rewrite <- Hlen.
    + rewrite length_app. cbn [List.length]. lia.
    + rewrite nth_middle. exact Hty.
  - destruct (parseProgram_loop
                (flat_map statement_tokens stmts ++ t :: rest) fuel
                (mkASTNode "Program" "" []) (mkPState 0 cerr0))
      as [[root st]| |] eqn:Hrun; [| |reflexivity].
    + exfalso.
      apply (parseProgram_loop_more_fuel _ _ (List.length stmts)) in Hrun.
      rewrite Nat.add_comm in Hrun.
      pose proof (parseProgram_loop_statements stmts [] (t :: rest)
                    fuel "Program" "" [] cerr0) as Hstep.
      cbn [app List.length Nat.add] in Hstep. rewrite Hstep in Hrun.
      assert (Hlen : List.length (flat_map statement_tokens stmts)
                     = 2 * List.length stmts).
      { clear. induction stmts as [|s stmts IH];
          cbn [flat_map statement_tokens app List.length] in *; lia. }
      rewrite parseProgram_loop_stuck in Hrun; [discriminate| |];
        cbn [index]; rewrite <- Hlen.
      * rewrite length_app. cbn [List.length]. lia.
      * rewrite nth_middle. exact Hty.
    + exfalso. exact (parseProgram_loop_in_range _ _ _ _ Hrun).
Qed.

Lemma parse_diverges_at_non_identifier_witness :
  type (mkToken LITERAL "7") <> IDENTIFIER /\
  (forall fuel cerr0,
      parse fuel
        (flat_map statement_tokens [("a", UNKNOWN)]
           ++ mkToken LITERAL "7" :: [mkToken UNKNOWN ";"]) cerr0
      = OutOfFuel).
Proof.
  split; [discriminate|].
  apply (parse_diverges_at_non_identifier
           [("a", UNKNOWN)] (mkToken LITERAL "7") [mkToken UNKNOWN ";"]).
  discriminate.
Defined.

(** Running through identifiers that are each followed by another text
    than ";" costs one iteration and one diagnostic each, and adds no
    child. *)
Lemma parseProgram_loop_identifiers (v : string) (ty : TokenType)
  (ids : list string) :
  forall (pre : list Token) (fuel : nat) (programNode : ASTNode)
         (e : list string),
    Forall (fun x => x <> ";") (ids ++ [v]) ->
    parseProgram_loop
      (pre ++ map (mkToken IDENTIFIER) ids
           ++ [mkToken IDENTIFIER v; mkToken ty ";"])
      (List.length ids + fuel) programNode (mkPState (List.length pre) e) =
    parseProgram_loop
      (pre ++ map (mkToken IDENTIFIER) ids
           ++ [mkToken IDENTIFIER v; mkToken ty ";"])
      fuel programNode
      (mkPState (List.length pre + List.length ids)
         (e ++ repeat expected_semicolon (List.length ids))).
Proof.
  induction ids as [|x ids IH]; intros pre fuel programNode e Hall.
  - cbn. rewrite Nat.add_0_r, app_nil_r. reflexivity.
  - cbn [map app List.length Nat.add].
    inversion Hall as [|? ? _ Hrest]; subst.
    assert (Hstep :
      parseProgram_loop
        (pre ++ mkToken IDENTIFIER x
             :: map (mkToken IDENTIFIER) ids
                  ++ [mkToken IDENTIFIER v; mkToken ty ";"])
        (S (List.length ids + fuel)) programNode
        (mkPState (List.length pre) e) =
      parseProgram_loop
        (pre ++ mkToken IDENTIFIER x
             :: map (mkToken IDENTIFIER) ids
                  ++ [mkToken IDENTIFIER v; mkToken ty ";"])
        (List.length ids + fuel) programNode
        (mkPState (S (List.length pre)) (e ++ [expected_semicolon]))).
    { destruct ids as [|y ids]; cbn [map app] in *.
      - apply parseProgram_loop_step_missing. cbn [value].
        now inversion Hrest.
      - apply parseProgram_loop_step_missing. cbn [value].
        now inversion Hrest. }
    rewrite Hstep.
    replace (pre ++ mkToken IDENTIFIER x
                 :: map (mkToken IDENTIFIER) ids
                      ++ [mkToken IDENTIFIER v; mkToken ty ";"])
      with ((pre ++ [mkToken IDENTIFIER x])
              ++ map (mkToken IDENTIFIER) ids
              ++ [mkToken IDENTIFIER v; mkToken ty ";"])
      by (rewrite <- app_assoc; reflexivity).
    replace (S (List.length pre))
      with (List.length (pre ++ [mkToken IDENTIFIER x]))
      by (rewrite length_app; cbn [List.length]; lia).
    rewrite (IH _ _ _ _ Hrest).
    rewrite repeat_snoc_app, length_app. cbn [List.length].
    match goal with
    | |- parseProgram_loop _ _ _ (mkPState ?a _) =
         parseProgram_loop _ _ _ (mkPState ?b _) =>
        replace a with b by lia
    end.
    reflexivity.
Qed.

(** X9.  Of a sequence of identifiers closed by one ";", only the last
    identifier becomes a statement.  On the tokens of [ids], [v] and a
    token whose text is ";", none of the identifiers being ";" itself,
    [parse] returns a Program node with the single child Statement [v],
    having written one "Expected semicolon after identifier." for each
    identifier of [ids]. *)
Theorem parse_identifier_sequence (ids : list string) (v : string)
  (ty : TokenType) (k : nat) (cerr0 : list string) :
  Forall (fun x => x <> ";") (ids ++ [v]) ->
  parse (List.length ids + (2 + k))
    (map (mkToken IDENTIFIER) ids ++ [mkToken IDENTIFIER v; mkToken ty ";"])
    cerr0 =
  Returned
    (mkASTNode "Program" "" [mkASTNode "Statement" v []],
     mkPState (List.length ids + 2)
       (cerr0 ++ repeat expected_semicolon (List.length ids))).
Proof.
  intros Hall. unfold parse, parseProgram.
  pose proof (parseProgram_loop_identifiers v ty ids [] (2 + k)
                (mkASTNode "Program" "" []) cerr0 Hall) as Hrun.
  cbn [app List.length Nat.add] in Hrun.
  change (2 + k) with (S (S k)). rewrite Hrun. clear Hrun.
  pose proof (parseProgram_loop_step_statement
                (map (mkToken IDENTIFIER) ids) v ty [] (S k)
                (mkASTNode "Program" "" [])
                (cerr0 ++ repeat expected_semicolon (List.length ids)))
    as Hstep.
  rewrite length_map in Hstep. cbn [Nat.add]. rewrite Hstep.
  cbn [push_back_child app].
  rewrite parseProgram_loop_at_end.
  - do 3 f_equal. lia.
  - cbn [index]. rewrite length_app, length_map. cbn [List.length]. lia.
Qed.

Lemma parse_identifier_sequence_witness :
  Forall (fun x => x <> ";") (["a"; "b"] ++ ["c"]) /\
  parse (2 + (2 + 0))
    (map (mkToken IDENTIFIER) ["a"; "b"]
       ++ [mkToken IDENTIFIER "c"; mkToken UNKNOWN ";"]) [] =
  Returned
    (mkASTNode "Program" "" [mkASTNode "Statement" "c" []],
     mkPState (2 + 2) ([] ++ repeat expected_semicolon 2)).
Proof.
  assert (H : Forall (fun x => x <> ";") (["a"; "b"] ++ ["c"])).
  { repeat constructor; discriminate. }
  split; [exact H|].
  apply (parse_identifier_sequence ["a"; "b"] "c" UNKNOWN 0 []). exact H.
Defined.

(* ===================================================================== *)
(** * The parser on the token vector of [main] *)
(* ===================================================================== *)

Lemma nth_length_pred_last {A : Type} (l : list A) (d : A) :
  nth (List.length l - 1) l d = last l d.
Proof.
  induction l as [|a l IH]; [reflexivity|].
  destruct l as [|b l]; [reflexivity|].
  cbn [List.length Nat.sub] in *. rewrite Nat.sub_0_r in *.
  cbn [nth last] in *. exact IH.
Qed.

(** A token of the lexer other than [UNKNOWN] starts with a letter, an
    underscore or a digit, so its text is not ";". *)
Lemma lexer_token_not_semicolon (t : Token) :
  lexer_token t = true -> type t <> UNKNOWN -> value t <> ";".
Proof.
  unfold lexer_token. intros Hform Hty Hval. rewrite Hval in Hform.
  destruct (type t); try discriminate; congruence.
Qed.

(** The loop of [parseProgram] on a vector as the lexing loop builds it
    (tokens of a type other than [UNKNOWN], none of them ";", then one
    [UNKNOWN] token): if it returns, then all tokens from the cursor to the
    last but one are identifiers, the last token is ";", and the only
    child added is the statement of the last identifier. *)
Lemma parseProgram_loop_on_stream (init : list Token) (u : Token)
  (fuel : nat) :
  Forall (fun t => value t <> ";" /\ type t <> UNKNOWN) init ->
  type u = UNKNOWN ->
  forall (programNode : ASTNode) (st : PState) (root : ASTNode)
         (st' : PState),
    index st <= List.length init ->
    parseProgram_loop (init ++ [u]) fuel programNode st
    = Returned (root, st') ->
    index st < List.length init /\
    (forall j, index st <= j < List.length init ->
               type (nth j init sentinel) = IDENTIFIER) /\
    value u = ";" /\
    root = push_back_child programNode
             (mkASTNode "Statement" (value (last init sentinel)) []) /\
    cerr st' =
      cerr st ++ repeat expected_semicolon (List.length init - 1 - index st).
Proof.
  intros Hinit Hu.
  induction fuel as [|fuel IH]; intros programNode st root st' Hle Hrun;
    [discriminate|].
  cbn [parseProgram_loop] in Hrun.
  assert (Hlt : (index st <? List.length (init ++ [u])) = true).
  { apply Nat.ltb_lt. rewrite length_app. cbn [List.length]. lia. }
  rewrite Hlt in Hrun. unfold bind in Hrun.
  rewrite parseStatement_eq in Hrun. cbv zeta in Hrun.
  destruct (TokenType_eqb (type (nth (index st) (init ++ [u]) sentinel))
              IDENTIFIER) eqn:Hty.
  - apply TokenType_eqb_eq in Hty.
    assert (Hin : index st < List.length init).
    { destruct (Nat.eq_dec (index st) (List.length init)) as [Heq|]; [|lia].
      rewrite Heq, nth_middle in Hty. congruence. }
    rewrite app_nth1 in Hty by exact Hin.
    destruct (String.eqb (value (nth (S (index st)) (init ++ [u]) sentinel))
                ";") eqn:Hsep.
    + apply String.eqb_eq in Hsep.
      assert (Hlast : S (index st) = List.length init).
      { destruct (Nat.eq_dec (S (index st)) (List.length init)); [assumption|].
        rewrite app_nth1 in Hsep by lia.
        rewrite Forall_forall in Hinit.
        destruct (Hinit (nth (S (index st)) init sentinel)) as [Hne _];
          [apply nth_In; lia|].
        contradiction. }
      rewrite Hlast, nth_middle in Hsep.
      destruct fuel as [|fuel]; [discriminate|].
      rewrite parseProgram_loop_at_end in Hrun
        by (cbn [index]; rewrite length_app; cbn [List.length]; lia).
      injection Hrun as <- <-. cbn [cerr].
      split; [exact Hin|]. split; [|split; [exact Hsep|split]].
      * intros j Hj. replace j with (index st) by lia. exact Hty.
      * rewrite app_nth1 by exact Hin.
        replace (index st) with (List.length init - 1) by lia.
        rewrite nth_length_pred_last. reflexivity.
      * replace (List.length init - 1 - index st) with 0 by lia.
        cbn [repeat]. now rewrite app_nil_r.
    + apply IH in Hrun; [|cbn [index]; lia].
      cbn [index cerr] in Hrun.
      destruct Hrun as (Hin' & Hids & Hsemi & Hroot & Hcerr).
      split; [exact Hin|]. split; [|split; [exact Hsemi|split]].
      * intros j Hj.
        destruct (Nat.eq_dec j (index st)) as [->|]; [exact Hty|].
        apply Hids. lia.
      * exact Hroot.
      * rewrite Hcerr, repeat_snoc_app. do 2 f_equal. lia.
  - apply TokenType_eqb_neq in Hty.
    rewrite parseProgram_loop_stuck in Hrun; [discriminate| |];
      cbn [index]; [apply Nat.ltb_lt; exact Hlt|exact Hty].
Qed.

Lemma identifier_tokens (l : list Token) :
  Forall (fun t => type t = IDENTIFIER) l ->
  l = map (mkToken IDENTIFIER) (map value l).
Proof.
  induction 1 as [|[ty v] l Hty _ IH]; [reflexivity|].
  cbn [map value type] in *. subst ty. f_equal. exact IH.
Qed.

(** The shape of a run of the lexing loop and the parser that returns. *)
Lemma lexed_parse_shape (fuel : nat) (code : string) (tokens : list Token)
  (fuel' : nat) (cerr0 : list string) (root : ASTNode) (st : PState) :
  lexing fuel code = Returned tokens ->
  parse fuel' tokens cerr0 = Returned (root, st) ->
  exists ids v,
    tokens = map (mkToken IDENTIFIER) ids
               ++ [mkToken IDENTIFIER v; mkToken UNKNOWN ";"] /\
    root = mkASTNode "Program" "" [mkASTNode "Statement" v []] /\
    cerr st = cerr0 ++ repeat expected_semicolon (List.length ids).
Proof.
  intros Hlex Hparse.
  destruct (lexing_stream_shape fuel code tokens Hlex)
    as (init & u & -> & Hinit & _ & Hu).
  assert (Hinit' : Forall (fun t => value t <> ";" /\ type t <> UNKNOWN) init).
  { rewrite Forall_forall in *. intros t Ht.
    destruct (Hinit t Ht) as [Hform Hty].
    split; [apply lexer_token_not_semicolon; assumption|exact Hty]. }
  unfold parse, parseProgram in Hparse.
  apply (parseProgram_loop_on_stream init u fuel' Hinit' Hu) in Hparse;
    [|cbn [index]; lia].
  cbn [index cerr push_back_child app] in Hparse.
  destruct Hparse as (Hne & Hids & Hsemi & Hroot & Hcerr).
  destruct (exists_last (l := init)) as (l & a & ->).
  { intros ->. cbn in Hne. lia. }
  assert (Hall : Forall (fun t => type t = IDENTIFIER) (l ++ [a])).
  { rewrite Forall_forall. intros t Ht.
    destruct (In_nth _ _ sentinel Ht) as (j & Hj & <-).
    apply Hids. lia. }
  apply Forall_app in Hall. destruct Hall as [Hl Ha].
  pose proof (Forall_inv Ha) as Hta. cbv beta in Hta.
  exists (map value l), (value a).
  rewrite last_last in Hroot.
  rewrite length_app in Hcerr. cbn [List.length] in Hcerr.
  replace (List.length l + 1 - 1 - 0) with (List.length l) in Hcerr by lia.
  rewrite length_map.
  split; [|split; [exact Hroot|exact Hcerr]].
  rewrite <- app_assoc. cbn [app].
  rewrite <- (identifier_tokens l Hl).
  destruct a as [ta va], u as [tu vu]. cbn [type value] in *.
  rewrite Hta, Hu, Hsemi. reflexivity.
Qed.

(** X10.  Front end of [main], for every source text: if [parse] returns
    on the token vector that the lexing loop built, then that vector is a
    run of identifiers followed by the single-character token ";", the tree
    is a Program node with exactly one child, the Statement of the last
    identifier, one "Expected semicolon after identifier." was written for
    each earlier identifier, and the cursor is at the end.  For any other
    source text (empty, starting with a digit, holding another punctuation
    character first, not holding ";" at all) the parser does not return. *)
Theorem parse_of_lexed_source (fuel : nat) (code : string)
  (tokens : list Token) (fuel' : nat) (cerr0 : list string)
  (root : ASTNode) (st : PState) :
  lexing fuel code = Returned tokens ->
  parse fuel' tokens cerr0 = Returned (root, st) ->
  exists ids v,
    tokens = map (mkToken IDENTIFIER) ids
               ++ [mkToken IDENTIFIER v; mkToken UNKNOWN ";"] /\
    root = mkASTNode "Program" "" [mkASTNode "Statement" v []] /\
    cerr st = cerr0 ++ repeat expected_semicolon (List.length ids) /\
    index st = List.length ids + 2.
Proof.
  intros Hlex Hparse.
  destruct (lexed_parse_shape _ _ _ _ _ _ _ Hlex Hparse)
    as (ids & v & Htokens & Hroot & Hcerr).
  exists ids, v. repeat (split; [assumption|]).
  unfold parse, parseProgram in Hparse.
  apply parseProgram_loop_accounting in Hparse; [|cbn [index]; lia].
  destruct Hparse as [Hend _]. rewrite Hend, Htokens.
  rewrite length_app, length_map. reflexivity.
Qed.

Lemma parse_of_lexed_source_witness :
  lexing 4 "a b ; c" =
    Returned (map (mkToken IDENTIFIER) ["a"]
                ++ [mkToken IDENTIFIER "b"; mkToken UNKNOWN ";"]) /\
  parse 3 (map (mkToken IDENTIFIER) ["a"]
             ++ [mkToken IDENTIFIER "b"; mkToken UNKNOWN ";"]) [] =
    Returned (mkASTNode "Program" "" [mkASTNode "Statement" "b" []],
              mkPState 3 [expected_semicolon]) /\
  exists ids v,
    map (mkToken IDENTIFIER) ["a"]
      ++ [mkToken IDENTIFIER "b"; mkToken UNKNOWN ";"]
    = map (mkToken IDENTIFIER) ids
        ++ [mkToken IDENTIFIER v; mkToken UNKNOWN ";"] /\
    mkASTNode "Program" "" [mkASTNode "Statement" "b" []]
    = mkASTNode "Program" "" [mkASTNode "Statement" v []] /\
    cerr (mkPState 3 [expected_semicolon])
    = [] ++ repeat expected_semicolon (List.length ids) /\
    index (mkPState 3 [expected_semicolon]) = List.length ids + 2.
Proof.
  split; [reflexivity|]. split; [reflexivity|].
  apply (parse_of_lexed_source 4 "a b ; c" _ 3 []); reflexivity.
Defined.

(* ===================================================================== *)
(** * Visitor *)
(* ===================================================================== *)

Lemma visit_children_lines (cs : list ASTNode) :
  Forall (fun c => forall cout, visit c cout = cout ++ preorder_lines c) cs ->
  forall cout,
    fold_left (fun cout child => visit child cout) cs cout =
    cout ++ flat_map preorder_lines cs.
Proof.
  induction 1 as [|c cs Hc _ IH]; intros cout; cbn [fold_left flat_map].
  - now rewrite app_nil_r.
  - rewrite IH, Hc, <- app_assoc. reflexivity.
Qed.

Lemma preorder_lines_length (node : ASTNode) :
  List.length (preorder_lines node) = node_count node.
Proof.
  induction node as [t v cs IH] using ASTNode_children_ind.
  cbn [preorder_lines node_count List.length]. f_equal.
  induction IH as [|c cs Hc _ IHcs]; [reflexivity|].
  cbn [flat_map map list_sum]. rewrite length_app, Hc, IHcs. reflexivity.
Qed.

(** X11.  [visit] only appends to [std::cout]: what was written before
    stays in front.  It appends one line per node of the tree, in
    pre-order: the line of the node itself, then the lines of its
    children's subtrees from left to right. *)
Theorem visit_preorder (node : ASTNode) (cout : list string) :
  visit node cout = cout ++ preorder_lines node /\
  List.length (visit node cout) = List.length cout + node_count node.
Proof.
  assert (Hlines : forall n out, visit n out = out ++ preorder_lines n).
  { intros n. induction n as [t v cs IH] using ASTNode_children_ind.
    intros out. cbn [visit preorder_lines].
    rewrite (visit_children_lines cs IH), <- app_assoc. reflexivity. }
  split; [apply Hlines|].
  rewrite Hlines, length_app, preorder_lines_length. reflexivity.
Qed.

Example visit_two_statements :
  visit (mkASTNode "Program" ""
           [mkASTNode "Statement" "a" []; mkASTNode "Statement" "b" []]) [] =
  ["Visited node of type Program with value ";
   "Visited node of type Statement with value a";
   "Visited node of type Statement with value b"]%string.
Proof. reflexivity. Qed.

(* ===================================================================== *)
(** * Further properties of the serializer *)
(* ===================================================================== *)

(** The loop over the children, started at index [i] with [rest] the
    children from [i] on: the test [i != size - 1] is false exactly at the
    last child, so the separator goes between the records only. *)
Lemma for_children_concat (size : nat) (rest : list ASTNode) :
  Forall (fun c => serialize c = record_text c) rest ->
  forall i oss,
    i + List.length rest = size ->
    for_children size rest i oss =
    (oss ++ String.concat ", " (map record_text rest))%string.
Proof.
  induction 1 as [|c rest Hc _ IH]; intros i oss Hsize.
  - cbn. now rewrite append_nil_r.
  - rewrite for_children_cons, serializeNode_appends, Hc.
    destruct rest as [|d rest].
    + cbn [List.length] in Hsize.
      replace (i =? size - 1) with true
        by (symmetry; apply Nat.eqb_eq; lia).
      reflexivity.
    + cbn [List.length] in Hsize.
      replace (i =? size - 1) with false
        by (symmetry; apply Nat.eqb_neq; lia).
      cbn [negb]. rewrite IH by (cbn [List.length]; lia).
      cbn [map String.concat]. now rewrite <- !append_assoc.
Qed.

Lemma serialize_record (node : ASTNode) : serialize node = record_text node.
Proof.
  induction node as [t v cs IH] using ASTNode_children_ind.
  unfold serialize. rewrite serializeNode_unfold.
  rewrite (for_children_concat _ _ IH) by lia.
  cbn [record_text append]. now rewrite <- !append_assoc.
Qed.

(** X12.  The text that [serialize] returns for a node is the record of
    the node: the literal [{ "type": "], the type, [", "value": "], the
    value, [", "children": [], the texts of the children in order with
    [", "] between two of them and nothing after the last, and [] }].
    The same holds for what [serializeNode] appends to a stream. *)
Theorem serialize_is_record_text (node : ASTNode) (oss : string) :
  serialize node = record_text node /\
  serializeNode node oss = (oss ++ record_text node)%string.
Proof.
  split; [apply serialize_record|].
  rewrite serializeNode_appends, serialize_record. reflexivity.
Qed.

(** X13.  The serializer does not escape the type and value texts, so the
    text does not determine the tree: moving the separator literal
    [", "value": "] from the type of a node into its value gives another
    node with the same text. *)
Theorem serialize_not_injective (a b c : string) (cs : list ASTNode) :
  serialize (mkASTNode (a ++ lit_value ++ b) c cs) =
  serialize (mkASTNode a (b ++ lit_value ++ c) cs) /\
  mkASTNode (a ++ lit_value ++ b) c cs <> mkASTNode a (b ++ lit_value ++ c) cs.
Proof.
  split.
  - rewrite !serialize_record. cbn [record_text].
    now rewrite <- !append_assoc.
  - intros Heq. injection Heq as Ha _.
    apply (f_equal String.length) in Ha.
    rewrite !length_append in Ha. cbn in Ha. lia.
Qed.

(* ===================================================================== *)
(** * [main] *)
(* ===================================================================== *)

(** X14.  What [main] can return.  Without the input file: status 1,
    nothing on [std::cout], one line on [std::cerr].  With the file: status
    0, and then the token vector was a run of identifiers closed by ";",
    [std::cout] holds exactly three lines (the visit of the Program node,
    the visit of its only Statement, of the last identifier, and the
    serialized tree) and [std::cerr] holds one "Expected semicolon after
    identifier." for each earlier identifier and nothing else.  On every
    other source text [main] does not return. *)
Theorem main_outcome (fuel : nat) (file : option string) (status : nat)
  (cout err : list string) :
  main fuel file = Returned (status, cout, err) ->
  match file with
  | None =>
      status = 1 /\ cout = [] /\ err = ["Failed to open input file."]
  | Some code =>
      status = 0 /\
      exists ids v,
        lexing fuel code =
          Returned (map (mkToken IDENTIFIER) ids
                      ++ [mkToken IDENTIFIER v; mkToken UNKNOWN ";"]) /\
        cout =
          [visited_line "Program" ""; visited_line "Statement" v;
           ("Serialized AST: "
              ++ record_text
                   (mkASTNode "Program" "" [mkASTNode "Statement" v []]))
             %string] /\
        err = repeat expected_semicolon (List.length ids)
  end.
Proof.
  unfold main. destruct file as [code|].
  - destruct (lexing fuel code) as [tokens| |] eqn:Hlex; try discriminate.
    destruct (parse fuel tokens []) as [[ast st]| |] eqn:Hparse;
      try discriminate.
    intros [= <- <- <-].
    destruct (lexed_parse_shape _ _ _ _ _ _ _ Hlex Hparse)
      as (ids & v & -> & -> & Hcerr).
    split; [reflexivity|]. exists ids, v.
    split; [reflexivity|]. split; [|exact Hcerr].
    rewrite serialize_record. reflexivity.
  - intros [= <- <- <-]. repeat split.
Qed.

Lemma main_outcome_witness :
  main 4 (Some "a b ;"%string) =
    Returned (0,
              [visited_line "Program" ""; visited_line "Statement" "b";
               ("Serialized AST: "
                  ++ record_text
                       (mkASTNode "Program" ""
                          [mkASTNode "Statement" "b" []]))%string],
              [expected_semicolon]) /\
  (0 = 0 /\
   exists ids v,
     lexing 4 "a b ;" =
       Returned (map (mkToken IDENTIFIER) ids
                   ++ [mkToken IDENTIFIER v; mkToken UNKNOWN ";"]) /\
     [visited_line "Program" ""; visited_line "Statement" "b";
      ("Serialized AST: "
         ++ record_text
              (mkASTNode "Program" "" [mkASTNode "Statement" "b" []]))
        %string] =
       [visited_line "Program" ""; visited_line "Statement" v;
        ("Serialized AST: "
           ++ record_text
                (mkASTNode "Program" "" [mkASTNode "Statement" v []]))
          %string] /\
     [expected_semicolon] = repeat expected_semicolon (List.length ids)).
Proof.
  split; [reflexivity|].
  apply (main_outcome 4 (Some "a b ;"%string)). reflexivity.
Defined.

Lemma space_not_ident_char (c : ascii) :
  isspace c = true -> is_ident_char c = false.
Proof.
  destruct c as [b0 b1 b2 b3 b4 b5 b6 b7].
  destruct b0, b1, b2, b3, b4, b5, b6, b7;
    vm_compute; intros H; solve [reflexivity | discriminate H].
Qed.

(** The call made in front of white space followed by ";". *)
Lemma getNextToken_semicolon (pre ws post : string) :
  all_chars isspace ws = true ->
  getNextToken (pre ++ ws ++ ";" ++ post) (String.length pre) =
  (mkToken UNKNOWN ";", String.length pre + String.length ws).
Proof.
  intros Hws. unfold getNextToken.
  rewrite (skipWhitespace_run ws pre (";" ++ post) Hws eq_refl).
  replace (pre ++ ws ++ ";" ++ post)%string
    with ((pre ++ ws) ++ ";" ++ post)%string
    by (rewrite <- append_assoc; reflexivity).
  rewrite <- length_append, get_at_junction. reflexivity.
Qed.

(** The token vector of a source text that holds one identifier and then,
    behind any white space, ";". *)
Lemma lexing_single_statement (ws1 : string) (c : ascii)
  (run ws2 post : string) (k : nat) :
  all_chars isspace ws1 = true ->
  is_ident_start c = true ->
  all_chars is_ident_char run = true ->
  all_chars isspace ws2 = true ->
  lexing (2 + k) (ws1 ++ String c run ++ ws2 ++ ";" ++ post) =
  Returned [mkToken IDENTIFIER (String c run); mkToken UNKNOWN ";"].
Proof.
  intros Hws1 Hstart Hrun Hws2.
  assert (Hstop : stops_at is_ident_char (ws2 ++ ";" ++ post) = true).
  { destruct ws2 as [|w ws2]; [reflexivity|].
    cbn [all_chars] in Hws2. apply andb_true_iff in Hws2.
    unfold stops_at. cbn [append String.get].
    rewrite (space_not_ident_char w (proj1 Hws2)). reflexivity. }
  assert (Hfirst :
    getNextToken (ws1 ++ String c run ++ ws2 ++ ";" ++ post) 0 =
    (mkToken IDENTIFIER (String c run),
     String.length (ws1 ++ String c run))).
  { unfold getNextToken.
    pose proof (skipWhitespace_run ws1 "" (String c run ++ ws2 ++ ";" ++ post)
                  Hws1) as Hskip.
    cbn [append String.length Nat.add] in Hskip.
    cbn [append]. rewrite Hskip.
    2:{ unfold stops_at. cbn [String.get].
        rewrite (ident_start_not_space c Hstart). reflexivity. }
    rewrite get_at_junction. cbn [String.get]. rewrite Hstart.
    unfold lexIdentifier.
    pose proof (lex_while_run is_ident_char (String c run) ws1
                  (ws2 ++ ";" ++ post) "") as Hlex.
    cbn [append] in Hlex. rewrite Hlex.
    - rewrite length_append. reflexivity.
    - cbn [all_chars]. rewrite (ident_start_is_ident_char c Hstart), Hrun.
      reflexivity.
    - exact Hstop. }
  assert (Hsecond :
    getNextToken (ws1 ++ String c run ++ ws2 ++ ";" ++ post)
      (String.length (ws1 ++ String c run)) =
    (mkToken UNKNOWN ";",
     String.length (ws1 ++ String c run) + String.length ws2)).
  { replace (ws1 ++ String c run ++ ws2 ++ ";" ++ post)%string
      with ((ws1 ++ String c run) ++ ws2 ++ ";" ++ post)%string
      by (rewrite <- append_assoc; reflexivity).
    apply getNextToken_semicolon. exact Hws2. }
  unfold lexing. cbn [lexing_loop Nat.add].
  rewrite Hfirst. cbn [type TokenType_eqb negb app].
  rewrite Hsecond. reflexivity.
Qed.

(** X15.  The run of [main] without any diagnostic.  On a source text
    that holds one identifier and then, behind any white space, ";"
    (whatever follows the ";"), [main] returns status 0 given two units of
    fuel; [std::cout] holds the visit of the Program node, the visit of
    the Statement of the identifier and the serialized tree; [std::cerr]
    is empty. *)
Theorem main_single_statement (ws1 : string) (c : ascii)
  (run ws2 post : string) (k : nat) :
  all_chars isspace ws1 = true ->
  is_ident_start c = true ->
  all_chars is_ident_char run = true ->
  all_chars isspace ws2 = true ->
  main (2 + k) (Some (ws1 ++ String c run ++ ws2 ++ ";" ++ post)%string) =
  Returned
    (0,
     [visited_line "Program" ""; visited_line "Statement" (String c run);
      ("Serialized AST: "
         ++ record_text
              (mkASTNode "Program" ""
                 [mkASTNode "Statement" (String c run) []]))%string],
     []).
Proof.
  intros Hws1 Hstart Hrun Hws2. unfold main.
  rewrite (lexing_single_statement ws1 c run ws2 post k Hws1 Hstart Hrun Hws2).
  change (parse (2 + k)
            [mkToken IDENTIFIER (String c run); mkToken UNKNOWN ";"] [])
    with (Returned
            (mkASTNode "Program" ""
               [mkASTNode "Statement" (String c run) []],
             mkPState 2 (@nil string))).
  cbv beta iota zeta. rewrite serialize_record. reflexivity.
Qed.

Lemma main_single_statement_witness :
  all_chars isspace " " = true /\
  is_ident_start "f" = true /\
  all_chars is_ident_char "oo" = true /\
  all_chars isspace "" = true /\
  main (2 + 0) (Some (" " ++ String "f" "oo" ++ "" ++ ";" ++ " bar;")%string) =
  Returned
    (0,
     [visited_line "Program" ""; visited_line "Statement" "foo";
      ("Serialized AST: "
         ++ record_text
              (mkASTNode "Program" ""
                 [mkASTNode "Statement" "foo" []]))%string],
     []).
Proof.
  repeat (split; [reflexivity|]).
  apply (main_single_statement " " "f" "oo" "" " bar;" 0); reflexivity.
Defined.

(* ===================================================================== *)
(** * Loop postconditions and cursor invariants *)
(* ===================================================================== *)

(** X16.  Postcondition of [skipWhitespace]: the position only moves
    forward and never beyond the end of the buffer; everything between the
    old and the new position is white space, and the character under the
    new position, if there is one, is not.  A position already beyond the
    end is left alone. *)
Theorem skipWhitespace_postcondition (code : string) (pos : nat) :
  pos <= skipWhitespace code pos <= Nat.max pos (String.length code) /\
  all_chars isspace (substring pos (skipWhitespace code pos - pos) code)
  = true /\
  match String.get (skipWhitespace code pos) code with
  | Some c => isspace c = false
  | None => String.length code <= skipWhitespace code pos
  end.
Proof.
  split; [split|split].
  - apply skipWhitespace_ge.
  - destruct (Nat.le_gt_cases pos (String.length code)) as [Hle | Hgt].
    + pose proof (skipWhitespace_le code pos Hle). lia.
    + rewrite skipWhitespace_at_end by (apply get_ge_None; lia). lia.
  - apply skipWhitespace_slice.
  - destruct (String.get (skipWhitespace code pos) code) as [c|] eqn:Hget.
    + exact (skipWhitespace_stops code pos c Hget).
    + exact (get_None_ge _ _ Hget).
Qed.

Example skipWhitespace_ex :
  skipWhitespace (String "009" (String "010" " x ")) 0 = 3.
Proof. reflexivity. Qed.

Lemma pos_after_succ (code : string) (n : nat) :
  forall pos,
    pos_after (S n) code pos = snd (getNextToken code (pos_after n code pos)).
Proof.
  induction n as [|n IH]; intros pos; [reflexivity|].
  change (pos_after (S (S n)) code pos)
    with (pos_after (S n) code (snd (getNextToken code pos))).
  rewrite IH. reflexivity.
Qed.

(** X17.  Invariant of the lexer over any number of calls of
    [getNextToken] on a fresh lexer: the position never decreases from one
    call to the next and never exceeds the size of the buffer, so every
    read [code[pos]] that follows a bounds test is inside the buffer and
    the [size_t] position cannot wrap. *)
Theorem lexer_position_invariant (code : string) (n : nat) :
  pos_after n code 0 <= pos_after (S n) code 0 /\
  pos_after (S n) code 0 <= String.length code.
Proof.
  assert (Hbound : forall m, pos_after m code 0 <= String.length code).
  { induction m as [|m IH]; [cbn; lia|].
    rewrite pos_after_succ. apply getNextToken_bound. exact IH. }
  split; [|apply Hbound].
  rewrite pos_after_succ. apply getNextToken_ge.
Qed.

Lemma lexing_loop_length (fuel : nat) :
  forall (code : string) (pos : nat) (acc tokens : list Token),
    pos <= String.length code ->
    lexing_loop fuel code pos acc = Returned tokens ->
    List.length tokens <= List.length acc + S (String.length code - pos).
Proof.
  induction fuel as [|fuel IH]; intros code pos acc tokens Hpos Hrun;
    [discriminate|].
  cbn [lexing_loop] in Hrun.
  pose proof (getNextToken_progress code pos) as Hprog.
  pose proof (getNextToken_bound code pos Hpos) as Hbound.
  destruct (getNextToken code pos) as [token pos']. cbn [fst snd] in *.
  destruct (TokenType_eqb (type token) UNKNOWN) eqn:Hty; cbn [negb] in Hrun.
  - injection Hrun as <-. rewrite length_app. cbn [List.length]. lia.
  - apply TokenType_eqb_neq in Hty. specialize (Hprog Hty).
    apply IH in Hrun; [|exact Hbound].
    rewrite length_app in Hrun. cbn [List.length] in Hrun. lia.
Qed.

(** X18.  The token vector of a source text of [n] characters has at
    least one and at most [n + 1] tokens: every token before the final
    [UNKNOWN] one consumes at least one character. *)
Theorem lexing_length_bound (fuel : nat) (code : string)
  (tokens : list Token) :
  lexing fuel code = Returned tokens ->
  1 <= List.length tokens <= S (String.length code).
Proof.
  intros Hrun. split.
  - destruct (lexing_stream_shape fuel code tokens Hrun)
      as (init & u & -> & _).
    rewrite length_app. cbn [List.length]. lia.
  - unfold lexing in Hrun.
    apply lexing_loop_length in Hrun; [|lia].
    cbn [List.length] in Hrun. lia.
Qed.

Lemma lexing_length_bound_witness :
  lexing 4 "a b" =
    Returned [mkToken IDENTIFIER "a"; mkToken IDENTIFIER "b"; sentinel] /\
  1 <= List.length [mkToken IDENTIFIER "a"; mkToken IDENTIFIER "b"; sentinel]
    <= S (String.length "a b").
Proof.
  split; [reflexivity|].
  apply (lexing_length_bound 4 "a b"). reflexivity.
Defined.

(** X19.  A statement attempt that succeeds has read two tokens inside
    the vector, an [IDENTIFIER] under the cursor and a token whose text is
    ";" behind it; the node it returns is a Statement without children that
    carries the text of the identifier; the cursor has moved by exactly
    two and nothing was written to [std::cerr]. *)
Theorem parseStatement_success (tokens : list Token) (st : PState)
  (node : ASTNode) (st' : PState) :
  parseStatement tokens st = Returned (Some node, st') ->
  exists v separator,
    nth_error tokens (index st) = Some (mkToken IDENTIFIER v) /\
    nth_error tokens (S (index st)) = Some separator /\
    value separator = ";" /\
    node = mkASTNode "Statement" v [] /\
    index st' = index st + 2 /\
    cerr st' = cerr st.
Proof.
  rewrite parseStatement_eq. cbv zeta.
  destruct (TokenType_eqb (type (nth (index st) tokens sentinel)) IDENTIFIER)
    eqn:Hty; [|discriminate].
  destruct (String.eqb (value (nth (S (index st)) tokens sentinel)) ";")
    eqn:Hsep; [|discriminate].
  intros [= <- <-]. cbn [index cerr].
  apply TokenType_eqb_eq in Hty. apply String.eqb_eq in Hsep.
  assert (Hnext : S (index st) < List.length tokens).
  { destruct (Nat.lt_ge_cases (S (index st)) (List.length tokens));
      [assumption|].
    rewrite (nth_overflow tokens sentinel) in Hsep by lia.
    discriminate Hsep. }
  exists (value (nth (index st) tokens sentinel)),
         (nth (S (index st)) tokens sentinel).
  split; [|split; [|split; [exact Hsep|split; [reflexivity|split]]]].
  - rewrite (nth_error_nth' tokens sentinel) by lia.
    destruct (nth (index st) tokens sentinel) as [ty v].
    cbn [type value] in *. now subst ty.
  - apply nth_error_nth'. exact Hnext.
  - lia.
  - reflexivity.
Qed.

Lemma parseStatement_success_witness :
  parseStatement [mkToken IDENTIFIER "x"; mkToken UNKNOWN ";"]
    (mkPState 0 []) =
    Returned (Some (mkASTNode "Statement" "x" []), mkPState 2 []) /\
  exists v separator,
    nth_error [mkToken IDENTIFIER "x"; mkToken UNKNOWN ";"]
      (index (mkPState 0 [])) = Some (mkToken IDENTIFIER v) /\
    nth_error [mkToken IDENTIFIER "x"; mkToken UNKNOWN ";"]
      (S (index (mkPState 0 []))) = Some separator /\
    value separator = ";" /\
    mkASTNode "Statement" "x" [] = mkASTNode "Statement" v [] /\
    index (mkPState 2 []) = index (mkPState 0 []) + 2 /\
    cerr (mkPState 2 []) = cerr (mkPState 0 []).
Proof.
  split; [reflexivity|].
  apply (parseStatement_success
           [mkToken IDENTIFIER "x"; mkToken UNKNOWN ";"] (mkPState 0 [])).
  reflexivity.
Defined.

(* ===================================================================== *)
(** * Lexing loses white space only *)
(* ===================================================================== *)

Lemma substring_empty (n m : nat) : substring n m "" = "".
Proof. destruct n, m; reflexivity. Qed.

Lemma substring_split (s : string) :
  forall pos a b,
    substring pos (a + b) s =
    (substring pos a s ++ substring (pos + a) b s)%string.
Proof.
  induction s as [|c s IH]; intros pos a b.
  - now rewrite !substring_empty.
  - destruct pos as [|pos].
    + destruct a as [|a]; [reflexivity|].
      cbn [Nat.add substring append]. rewrite IH. reflexivity.
    + cbn [Nat.add substring]. apply IH.
Qed.

Lemma substring_whole (s : string) (n : nat) :
  String.length s <= n -> substring 0 n s = s.
Proof.
  revert n; induction s as [|c s IH]; intros [|n] H; cbn in *;
    try reflexivity; try lia.
  rewrite IH by lia. reflexivity.
Qed.

Lemma strip_spaces_app (s1 s2 : string) :
  strip_spaces (s1 ++ s2) = (strip_spaces s1 ++ strip_spaces s2)%string.
Proof.
  induction s1 as [|c s1 IH]; cbn [append strip_spaces]; [reflexivity|].
  destruct (isspace c); rewrite IH; reflexivity.
Qed.

Lemma strip_spaces_all_space (s : string) :
  all_chars isspace s = true -> strip_spaces s = "".
Proof.
  induction s as [|c s IH]; cbn [all_chars strip_spaces]; [reflexivity|].
  intros H. apply andb_true_iff in H. destruct H as [Hc Hs].
  rewrite Hc. apply IH. exact Hs.
Qed.

Lemma strip_spaces_none (p : ascii -> bool) (s : string) :
  (forall c, p c = true -> isspace c = false) ->
  all_chars p s = true -> strip_spaces s = s.
Proof.
  intros Hp. induction s as [|c s IH]; cbn [all_chars strip_spaces];
    [reflexivity|].
  intros H. apply andb_true_iff in H. destruct H as [Hc Hs].
  rewrite (Hp c Hc), (IH Hs). reflexivity.
Qed.

Lemma ident_char_not_space (c : ascii) :
  is_ident_char c = true -> isspace c = false.
Proof.
  intros H. destruct (isspace c) eqn:Hsp; [|reflexivity].
  rewrite (space_not_ident_char c Hsp) in H. discriminate H.
Qed.

(** The text of a token of the lexer holds no white space. *)
Lemma lexer_token_no_space (t : Token) :
  lexer_token t = true -> strip_spaces (value t) = value t.
Proof.
  unfold lexer_token. destruct (type t); try discriminate.
  - destruct (value t) as [|c rest]; [discriminate|].
    intros H. apply andb_true_iff in H. destruct H as [Hc Hrest].
    apply (strip_spaces_none is_ident_char); [apply ident_char_not_space|].
    cbn [all_chars]. rewrite (ident_start_is_ident_char c Hc), Hrest.
    reflexivity.
  - destruct (value t) as [|c rest]; [discriminate|].
    intros H. apply (strip_spaces_none isdigit); [apply digit_not_space|].
    exact H.
  - destruct (value t) as [|c [|d rest]]; try discriminate; [reflexivity|].
    intros H. apply andb_true_iff in H. destruct H as [H _].
    apply andb_true_iff in H. destruct H as [H _].
    apply negb_true_iff in H. cbn [strip_spaces]. rewrite H. reflexivity.
Qed.

(** One call: the text of the token is the slice it was read from, white
    space removed.  The slice ends at the new position, or one character
    behind it for an [UNKNOWN] token (whose character is not consumed). *)
Lemma getNextToken_text (code : string) (pos : nat) :
  let token := fst (getNextToken code pos) in
  let q := match type token with
           | UNKNOWN => S (skipWhitespace code pos)
           | _ => snd (getNextToken code pos)
           end in
  pos <= q /\
  value token = strip_spaces (substring pos (q - pos) code).
Proof.
  pose proof (getNextToken_cases code pos) as (Hskip & Hform & Hslice).
  pose proof (skipWhitespace_ge code pos) as Hge.
  cbv zeta in *.
  set (start := skipWhitespace code pos) in *.
  set (token := fst (getNextToken code pos)) in *.
  set (pos' := snd (getNextToken code pos)) in *.
  assert (Hcommon : forall q, start <= q ->
            value token = substring start (q - start) code ->
            pos <= q /\
            value token = strip_spaces (substring pos (q - pos) code)).
  { intros q Hq Hval. split; [lia|].
    replace (q - pos) with ((start - pos) + (q - start)) by lia.
    rewrite substring_split, strip_spaces_app.
    rewrite (strip_spaces_all_space _ Hskip).
    replace (pos + (start - pos)) with start by lia.
    rewrite <- Hval. cbn [append]. symmetry.
    apply lexer_token_no_space. exact Hform. }
  destruct (type token); destruct Hslice as [Hpos Hval];
    try (apply Hcommon; [lia|exact Hval]).
  apply Hcommon; [lia|].
  replace (S start - start) with 1 by lia. exact Hval.
Qed.

Lemma calls_last (n : nat) :
  forall code pos,
    last (calls (S n) code pos) sentinel =
    fst (getNextToken code (pos_after n code pos)).
Proof.
  induction n as [|n IH]; intros code pos.
  - cbn [calls pos_after]. destruct (getNextToken code pos). reflexivity.
  - change (calls (S (S n)) code pos)
      with (let '(t, p) := getNextToken code pos in t :: calls (S n) code p).
    change (pos_after (S n) code pos)
      with (pos_after n code (snd (getNextToken code pos))).
    destruct (getNextToken code pos) as [t p] eqn:Hcall. cbn [snd].
    rewrite <- IH.
    remember (calls (S n) code p) as rest eqn:Hrest.
    destruct rest as [|r rest]; [|reflexivity].
    cbn [calls] in Hrest. destruct (getNextToken code p). discriminate.
Qed.

Lemma calls_texts (n : nat) :
  forall code pos,
    Forall (fun t => type t <> UNKNOWN) (removelast (calls (S n) code pos)) ->
    type (last (calls (S n) code pos) sentinel) = UNKNOWN ->
    pos <= S (skipWhitespace code (pos_after n code pos)) /\
    token_texts (calls (S n) code pos) =
    strip_spaces
      (substring pos
         (S (skipWhitespace code (pos_after n code pos)) - pos) code).
Proof.
  induction n as [|n IH]; intros code pos Hinit Hlast.
  - pose proof (getNextToken_text code pos) as Htext. cbv zeta in Htext.
    cbn [calls pos_after last] in *.
    destruct (getNextToken code pos) as [t p]. cbn [fst snd last] in *.
    rewrite Hlast in Htext. destruct Htext as [Hle Hval].
    split; [exact Hle|].
    cbn [token_texts fold_right]. rewrite append_nil_r. exact Hval.
  - pose proof (getNextToken_text code pos) as Htext. cbv zeta in Htext.
    change (pos_after (S n) code pos)
      with (pos_after n code (snd (getNextToken code pos))).
    change (calls (S (S n)) code pos)
      with (let '(t, p) := getNextToken code pos in t :: calls (S n) code p)
      in *.
    destruct (getNextToken code pos) as [t p]. cbn [fst snd] in *.
    remember (calls (S n) code p) as rest eqn:Hrest.
    assert (Hne : rest <> []).
    { rewrite Hrest. cbn [calls]. destruct (getNextToken code p).
      discriminate. }
    destruct rest as [|r rest]; [congruence|].
    change (removelast (t :: r :: rest))
      with (t :: removelast (r :: rest)) in Hinit.
    pose proof (Forall_inv Hinit) as Ht. cbv beta in Ht.
    pose proof (Forall_inv_tail Hinit) as Hinit'.
    assert (Hlast' : type (last (r :: rest) sentinel) = UNKNOWN)
      by exact Hlast.
    rewrite Hrest in Hinit', Hlast'.
    destruct (IH code p Hinit' Hlast') as [Hle Hrec].
    assert (Hq : match type t with
                 | UNKNOWN => S (skipWhitespace code pos)
                 | _ => p
                 end = p) by (destruct (type t); congruence).
    rewrite Hq in Htext. destruct Htext as [Hpos Hval].
    split; [lia|].
    rewrite Hrest. cbn [token_texts fold_right].
    fold (token_texts (calls (S n) code p)). rewrite Hrec, Hval.
    rewrite <- strip_spaces_app. f_equal.
    set (q := S (skipWhitespace code (pos_after n code p))) in *.
    replace (q - pos) with ((p - pos) + (q - p)) by lia.
    rewrite substring_split. replace (pos + (p - pos)) with p by lia.
    reflexivity.
Qed.

(** X20.  Lexing loses white space only.  The texts of the tokens of the
    vector that the lexing loop builds, put one after the other, are a
    prefix of the source text with its white space removed; and when the
    vector ends with the end sentinel (the loop reached the end of the
    input), they are the whole source text with its white space removed. *)
Theorem lexing_texts (fuel : nat) (code : string) (tokens : list Token) :
  lexing fuel code = Returned tokens ->
  (exists n, token_texts tokens = strip_spaces (substring 0 n code)) /\
  (value (last tokens sentinel) = "" ->
   token_texts tokens = strip_spaces code).
Proof.
  intros Hrun.
  apply (lexing_more_fuel _ (S (String.length code))) in Hrun.
  unfold lexing in Hrun.
  destruct (lexing_loop_returns (fuel + S (String.length code)) code 0 []
              ltac:(lia) ltac:(lia)) as (n & Hret & Hlast & Hinit).
  change ([] ++ calls (S n) code 0) with (calls (S n) code 0) in Hret.
  assert (Heq : tokens = calls (S n) code 0) by congruence.
  rewrite Heq. clear Heq Hrun Hret.
  destruct (calls_texts n code 0 Hinit Hlast) as [_ Htexts].
  rewrite Nat.sub_0_r in Htexts.
  split; [eexists; exact Htexts|].
  intros Hempty. rewrite Htexts. f_equal. apply substring_whole.
  rewrite calls_last in Hempty, Hlast.
  pose proof (getNextToken_cases code (pos_after n code 0))
    as (_ & _ & Hslice).
  cbv zeta in Hslice. rewrite Hlast in Hslice. destruct Hslice as [_ Hval].
  rewrite Hempty in Hval.
  destruct (String.get (skipWhitespace code (pos_after n code 0)) code)
    as [c|] eqn:Hget.
  - rewrite (substring_step _ _ _ _ Hget) in Hval. discriminate Hval.
  - apply get_None_ge in Hget. lia.
Qed.

Lemma lexing_texts_witness :
  lexing 4 " ab  12 c " =
    Returned [mkToken IDENTIFIER "ab"; mkToken LITERAL "12";
              mkToken IDENTIFIER "c"; sentinel] /\
  ((exists n,
       token_texts [mkToken IDENTIFIER "ab"; mkToken LITERAL "12";
                    mkToken IDENTIFIER "c"; sentinel]
       = strip_spaces (substring 0 n " ab  12 c ")) /\
   (value (last [mkToken IDENTIFIER "ab"; mkToken LITERAL "12";
                 mkToken IDENTIFIER "c"; sentinel] sentinel) = "" ->
    token_texts [mkToken IDENTIFIER "ab"; mkToken LITERAL "12";
                 mkToken IDENTIFIER "c"; sentinel]
    = strip_spaces " ab  12 c ")).
Proof.
  split; [reflexivity|].
  apply (lexing_texts 4 " ab  12 c "). reflexivity.
Defined.
